(** * RwsCheck: the checks run on a list of related website sets

    A shallow embedding of [RwsCheck.py].  An [RwsCheck] object carries the
    submitted sets, the public suffix oracle, the ICANN country codes and the
    two diagnostic sequences [error_list] and [warning_texts]; every method of
    the class is a computation in a state monad over that object and the
    network.

    Conventions of the embedding.
    - A Python [str] is a [string] holding its UTF-8 bytes: [startswith],
      [removeprefix], [split], [in] and the ordering used by [sorted] coincide
      on the encoding; iterating a [str] yields its characters, see [chars].
    - A [dict] is an association list in insertion order (Python dicts iterate
      in insertion order); a [set] of [str] is a [gset string].
    - The submission is schema-valid (the schema is validated before any
      check runs): every record has a [primary], and the optional fields,
      when present, have the types the schema gives them. *)

From Stdlib Require Import ZArith Ascii.
From stdpp Require Import base option list sorting gmap strings pretty.

Local Open Scope Z_scope.

Set Warnings "-clear-no-such-hyp".

(** ** Python string operations *)

Module Str.

(** [s.startswith(p)] *)
Definition startswith (s p : string) : bool := String.prefix p s.

Fixpoint drop (n : nat) (s : string) : string :=
  match n, s with
  | O, _ => s
  | S n', String _ rest => drop n' rest
  | S _, EmptyString => EmptyString
  end.

(** [s.removeprefix(p)] *)
Definition removeprefix (s p : string) : string :=
  if startswith s p then drop (String.length p) s else s.

(** [s.split(sep)] for a one-character separator: never empty. *)
Fixpoint split (sep : ascii) (s : string) : list string :=
  match s with
  | EmptyString => [EmptyString]
  | String c rest =>
      if Ascii.eqb c sep then EmptyString :: split sep rest
      else match split sep rest with
           | seg :: segs => String c seg :: segs
           | [] => [String c EmptyString]
           end
  end.

(** [l[0]] and [l[-1]] of a list returned by [split]. *)
Definition first (l : list string) : string := hd EmptyString l.
Definition last (l : list string) : string := List.last l EmptyString.

(** [needle in hay] *)
Fixpoint contains (needle hay : string) : bool :=
  String.prefix needle hay ||
  match hay with
  | EmptyString => false
  | String _ rest => contains needle rest
  end.

(** A byte [10xxxxxx] continues a UTF-8 encoded character. *)
Definition is_continuation (c : ascii) : bool :=
  let n := nat_of_ascii c in (Nat.leb 128 n) && (Nat.ltb n 192).

Definition starts_with_continuation (s : string) : bool :=
  match s with
  | String c _ => is_continuation c
  | EmptyString => false
  end.

(** The characters of [s], as iteration over a [str] yields them: a byte
    is grouped with the continuation bytes that follow it. *)
Fixpoint chars (s : string) : list string :=
  match s with
  | EmptyString => []
  | String c rest =>
      let chs := chars rest in
      if starts_with_continuation rest then
        match chs with
        | ch :: chs' => String c ch :: chs'
        | [] => [String c EmptyString]
        end
      else String c EmptyString :: chs
  end.

(** [str(x)] of an optional string: [None] prints as its name. *)
Definition of_option (o : option string) : string :=
  match o with Some s => s | None => "None" end.

End Str.

(** ** Data model *)

(** A [dict] from [str]: insertion-ordered association list. *)
Definition dict (V : Type) : Type := list (string * V).

Definition keys {V} (d : dict V) : list string := d.*1.
Definition values {V} (d : dict V) : list V := d.*2.

(** [d.get(k)] *)
Fixpoint dict_get {V} (d : dict V) (k : string) : option V :=
  match d with
  | [] => None
  | (k', v) :: d' => if decide (k' = k) then Some v else dict_get d' k
  end.

(** One record of the submitted document's [sets] list. *)
Record rws_record := {
  rec_primary : string;
  rec_ccTLDs : option (dict (list string));
  rec_associatedSites : option (list string);
  rec_serviceSites : option (list string);
  rec_rationaleBySite : option (gmap string string)
}.

(** Modelled from the spec: the class [RwsSet] of [RwsSet.py], which is not
    among the sources.  The spec gives a Set a primary, a ccTLD alias mapping
    and ordered associated and service site sequences, all but the primary
    optional in the input; an absent field is the empty mapping or sequence.
    The primary is whatever [.get('primary')] returned, hence optional. *)
Record RwsSet := {
  ccTLDs : dict (list string);
  primary : option string;
  associated_sites : list string;
  service_sites : list string
}.

(** Modelled from the spec: the constructor [RwsSet(ccTLDs, primary,
    associated_sites, service_sites)] of the absent [RwsSet.py]. *)
Definition RwsSet_init (cc : option (dict (list string))) (p : option string)
    (assoc svc : option (list string)) : RwsSet :=
  {| ccTLDs := default [] cc;
     primary := p;
     associated_sites := default [] assoc;
     service_sites := default [] svc |}.

(** Modelled from the spec: [RwsSet.includes(domain, primaryOnly)] of the
    absent [RwsSet.py], "a query over its own primary/associated/service
    membership"; with the flag set only the primary is consulted. *)
Definition includes (s : RwsSet) (site : string) (primary_only : bool) : bool :=
  bool_decide (primary s = Some site) ||
  (negb primary_only &&
   (bool_decide (site ∈ associated_sites s) || bool_decide (site ∈ service_sites s))).

(** The suffix oracle [PublicSuffixList] of [publicsuffix2], in strict mode:
    [None] is Python's [None]. *)
Record PublicSuffixList := {
  get_sld : string → option string;
  get_tld : string → option string
}.

(** The [RwsCheck] object. *)
Record RwsCheck := {
  rws_sites : list rws_record;
  etlds : PublicSuffixList;
  icanns : gset string;
  error_list : list string;
  warning_texts : list string
}.

(** [RwsCheck.__init__] *)
Definition RwsCheck_init (sites : list rws_record) (e : PublicSuffixList)
    (ic : gset string) : RwsCheck :=
  {| rws_sites := sites; etlds := e; icanns := ic;
     error_list := []; warning_texts := [] |}.

Definition WELL_KNOWN : string := "/.well-known/related-website-set.json".
Definition ASSOCIATED_LIMIT : nat := 5.

(** ** The outside world *)

(** What [requests.get] returns: the status code, the final URL and the
    value of the [X-Robots-Tag] header when the response has one. *)
Record response := {
  status_code : Z;
  url : string;
  x_robots_tag : option string
}.

(** Outcome of [requests.get]: a response, or an exception with its text
    [str(inst)]. *)
Inductive http_result :=
  | Responded (r : response)
  | HttpRaised (inst : string).

(** The JSON object served at a well-known URL, with the shape of a record
    of the submission: each key may be absent. *)
Record manifest := {
  wk_ccTLDs : option (dict (list string));
  wk_primary : option string;
  wk_associatedSites : option (list string);
  wk_serviceSites : option (list string)
}.

(** Outcome of [urlopen] followed by [json.load]: the object loaded, or the
    exception raised, with its text [str(inst)].  A body that is not a JSON
    object makes the first access to it raise, before anything is appended,
    and counts as [JsonRaised]; an object whose fields have other types than
    the schema's is outside the model. *)
Inductive json_result :=
  | Loaded (json_schema : manifest)
  | JsonRaised (inst : string).

(** The Python runtime and the network the checks run against.  The network
    is a state [World] that every request may change; [repr_list] and
    [repr_set] are the texts an f-string gives a list and a set of [str]
    (the order in which a set prints is not fixed by Python). *)
Class Runtime := {
  World : Type;
  urlopen_json_load : string → World → json_result * World;
  requests_get : string → bool → World → http_result * World;
  repr_list : list string → string;
  repr_set : gset string → string
}.

(** ** The state monad of the methods *)

Record state `{Runtime} := State {
  self : RwsCheck;
  net : World
}.
Arguments State {_} _ _.

Definition M `{Runtime} (A : Type) : Type := state → A * state.

#[global] Instance M_ret `{Runtime} : MRet M := λ A x s, (x, s).
#[global] Instance M_bind `{Runtime} : MBind M :=
  λ A B f m s, let '(a, s') := m s in f a s'.

Definition get_self `{Runtime} : M RwsCheck := λ s, (self s, s).

Definition set_error_list (l : list string) (c : RwsCheck) : RwsCheck :=
  {| rws_sites := rws_sites c; etlds := etlds c; icanns := icanns c;
     error_list := l; warning_texts := warning_texts c |}.

Definition set_warning_texts (l : list string) (c : RwsCheck) : RwsCheck :=
  {| rws_sites := rws_sites c; etlds := etlds c; icanns := icanns c;
     error_list := error_list c; warning_texts := l |}.

(** [self.error_list.extend(msgs)], also [self.error_list += msgs] *)
Definition extend_errors `{Runtime} (msgs : list string) : M unit :=
  λ s, ((), State (set_error_list (error_list (self s) ++ msgs) (self s)) (net s)).

(** [self.error_list.append(msg)] *)
Definition append_error `{Runtime} (msg : string) : M unit :=
  extend_errors [msg].

(** [self.warning_texts.append(msg)] *)
Definition append_warning `{Runtime} (msg : string) : M unit :=
  λ s, ((), State (set_warning_texts (warning_texts (self s) ++ [msg]) (self s)) (net s)).

(** A request: the only way a method touches the network. *)
Definition request `{Runtime} {A} (f : World → A * World) : M A :=
  λ s, let '(a, w) := f (net s) in (a, State (self s) w).

(** [if b: m] *)
Definition when `{Runtime} (b : bool) (m : M unit) : M unit :=
  if b then m else mret ().

(** [for x in xs: body] *)
Fixpoint for_each `{Runtime} {A} (xs : list A) (body : A → M unit) : M unit :=
  match xs with
  | [] => mret ()
  | x :: xs' => body x ;; for_each xs' body
  end.

(** [for x in xs: body], the body updating a local variable [acc]. *)
Fixpoint for_fold `{Runtime} {A S} (xs : list A) (acc : S)
    (body : S → A → M S) : M S :=
  match xs with
  | [] => mret acc
  | x :: xs' => acc' ← body acc x; for_fold xs' acc' body
  end.

(** The errors and warnings a computation leaves behind. *)
Definition exec `{Runtime} {A} (m : M A) (s : state) : state := (m s).2.
Definition errors_of `{Runtime} (s : state) : list string := error_list (self s).
Definition warnings_of `{Runtime} (s : state) : list string := warning_texts (self s).

(** ** The methods of [RwsCheck] *)

Definition newline : string := String (ascii_of_nat 10) EmptyString.
Definition tab : string := String (ascii_of_nat 9) EmptyString.

(** One iteration of the loop of [load_sets] over its two local variables
    [check_sets] and [load_sets_errors]. *)
Definition load_sets_step (acc : dict RwsSet * list string) (rwset : rws_record)
    : dict RwsSet * list string :=
  let '(check_sets, load_sets_errors) := acc in
  let primary := rec_primary rwset in
  let ccTLDs := rec_ccTLDs rwset in
  let associated_sites := rec_associatedSites rwset in
  let service_sites := rec_serviceSites rwset in
  if bool_decide (primary ∈ keys check_sets) then
    (check_sets,
     load_sets_errors ++ [primary +:+ " is already a primary of another site"])
  else
    (check_sets ++
       [(primary, RwsSet_init ccTLDs (Some primary) associated_sites service_sites)],
     load_sets_errors).

Definition load_sets_loop (sets : list rws_record) : dict RwsSet * list string :=
  foldl load_sets_step ([], []) sets.

Definition load_sets `{Runtime} : M (dict RwsSet) :=
  me ← get_self;
  let '(check_sets, load_sets_errors) := load_sets_loop (rws_sites me) in
  extend_errors load_sets_errors;;
  mret check_sets.

(** The body of the loop of [has_all_rationales].  [sites] is a list, and
    [sites != None] holds of every list. *)
Definition has_all_rationales_body `{Runtime} (check_sets : dict RwsSet)
    (rwset : rws_record) : M unit :=
  if bool_decide (rec_primary rwset ∉ keys check_sets) then mret ()
  else
    let sites :=
      default [] (rec_associatedSites rwset) ++ default [] (rec_serviceSites rwset) in
    let rationales := rec_rationaleBySite rwset in
    let sites_is_not_None := true in
    match rationales with
    | Some r =>
        when (bool_decide (sites ≠ []))
          (for_each sites (λ site,
             when (bool_decide (site ∉ dom r))
               (append_error ("There is no provided rationale for " +:+ site))))
    | None => mret ()
    end;;
    when (sites_is_not_None && bool_decide (rationales = None))
      (append_error
         ("A rationaleBySite field is required for this set, but"
          +:+ " none is provided. ")).

Definition has_all_rationales `{Runtime} (check_sets : dict RwsSet) : M unit :=
  me ← get_self;
  for_each (rws_sites me) (has_all_rationales_body check_sets).

(** One category step of [check_exclusivity]: the overlap of [sites] with
    the running [site_list] is reported, or else [sites] joins it. *)
Definition exclusivity_step `{Runtime} (prefix : string) (sites : list string)
    (site_list : gset string) : M (gset string) :=
  let overlap : gset string := list_to_set sites ∩ site_list in
  if bool_decide (overlap ≠ ∅) then
    append_error (prefix +:+ repr_set overlap);; mret site_list
  else mret (site_list ∪ list_to_set sites).

(** The body of the loop of [check_exclusivity].  [site_list.update(primary)]
    is given a [str] and so adds each of its characters. *)
Definition check_exclusivity_body `{Runtime} (site_list : gset string)
    (item : string * RwsSet) : M (gset string) :=
  let '(primary, rws) := item in
  site_list ←
    (if bool_decide (primary ∈ site_list) then
       append_error
         ("This primary is already registered in another related website"
          +:+ " set: " +:+ primary);;
       mret site_list
     else mret (site_list ∪ list_to_set (Str.chars primary)));
  site_list ←
    exclusivity_step
      ("These associated sites are already registered in "
       +:+ "another related website set: ")
      (associated_sites rws) site_list;
  site_list ←
    exclusivity_step
      ("These service sites are already registered in another"
       +:+ " related website set: ")
      (service_sites rws) site_list;
  for_fold (values (ccTLDs rws)) site_list (λ site_list aliases,
    exclusivity_step
      ("These ccTLD sites are already registered in "
       +:+ "another related website set: ")
      aliases site_list).

Definition check_exclusivity_loop `{Runtime} (check_sets : dict RwsSet)
    (site_list : gset string) : M (gset string) :=
  for_fold check_sets site_list check_exclusivity_body.

Definition check_exclusivity `{Runtime} (check_sets : dict RwsSet) : M unit :=
  check_exclusivity_loop check_sets ∅;; mret ().

Definition check_associated_count `{Runtime} (check_sets : dict RwsSet) : M unit :=
  for_each check_sets (λ '(primary, rws),
    when (bool_decide (ASSOCIATED_LIMIT < length (associated_sites rws))%nat)
      (append_warning
         ("Warning: the set for " +:+ primary +:+ " contains more than "
          +:+ pretty ASSOCIATED_LIMIT +:+ " associated sites."))).

Definition url_is_https (site : string) : bool :=
  Str.startswith site "https://".

(** The traversal shared by [find_non_https_urls] and
    [find_invalid_eTLD_Plus1]: the primary, then every aliased site followed
    by its aliases, then the associated and the service sites. *)
Definition find_non_https_urls `{Runtime} (check_sets : dict RwsSet) : M unit :=
  for_each check_sets (λ '(primary, curr_set),
    when (negb (url_is_https primary))
      (append_error
         ("The provided primary site does not begin with https:// " +:+ primary));;
    for_each (ccTLDs curr_set) (λ '(aliased_site, aliases),
      when (negb (url_is_https aliased_site))
        (append_error
           ("The provided aliased site does not begin with https:// "
            +:+ aliased_site));;
      for_each aliases (λ alias,
        when (negb (url_is_https alias))
          (append_error
             ("The provided alias site does not begin with https:// " +:+ alias))));;
    for_each (associated_sites curr_set) (λ associated_site,
      when (negb (url_is_https associated_site))
        (append_error
           ("The provided associated site does not begin with https:// "
            +:+ associated_site)));;
    for_each (service_sites curr_set) (λ service_site,
      when (negb (url_is_https service_site))
        (append_error
           ("The provided service site does not begin with https:// "
            +:+ service_site)))).

Definition is_eTLD_Plus1 (me : RwsCheck) (site : string) : bool :=
  let site := Str.removeprefix site "https://" in
  let is_etldp1_or_etld := bool_decide (get_sld (etlds me) site = Some site) in
  let is_etld := bool_decide (get_tld (etlds me) site = Some site) in
  is_etldp1_or_etld && negb is_etld.

Definition find_invalid_eTLD_Plus1 `{Runtime} (check_sets : dict RwsSet) : M unit :=
  me ← get_self;
  for_each check_sets (λ '(primary, curr_set),
    when (negb (is_eTLD_Plus1 me primary))
      (append_error ("The provided primary site is not an eTLD+1: " +:+ primary));;
    for_each (ccTLDs curr_set) (λ '(aliased_site, aliases),
      when (negb (is_eTLD_Plus1 me aliased_site))
        (append_error
           ("The provided aliased site is not an eTLD+1: " +:+ aliased_site));;
      for_each aliases (λ alias,
        when (negb (is_eTLD_Plus1 me alias))
          (append_error ("The provided alias site is not an eTLD+1: " +:+ alias))));;
    for_each (associated_sites curr_set) (λ associated_site,
      when (negb (is_eTLD_Plus1 me associated_site))
        (append_error
           ("The provided associated site is not an eTLD+1: " +:+ associated_site)));;
    for_each (service_sites curr_set) (λ service_site,
      when (negb (is_eTLD_Plus1 me service_site))
        (append_error
           ("The provided service site is not an eTLD+1: " +:+ service_site)))).

(** [open_and_load_json]: the JSON object at [url], or the exception that
    [urlopen] or [json.load] raised. *)
Definition open_and_load_json `{Runtime} (url : string) : M json_result :=
  request (urlopen_json_load url).

Definition check_list_sites `{Runtime} (primary : string)
    (site_list : list string) : M unit :=
  for_each site_list (λ site,
    let url := site +:+ WELL_KNOWN in
    r ← open_and_load_json url;
    match r with
    | Loaded json_schema =>
        match wk_primary json_schema with
        | None =>
            append_error
              ("The listed associated site site did not have primary"
               +:+ " as a key in its " +:+ WELL_KNOWN +:+ " file: " +:+ site)
        | Some listed =>
            when (bool_decide (listed ≠ primary))
              (append_error
                 ("The listed associated site "
                  +:+ "did not have " +:+ primary
                  +:+ " listed as its primary: " +:+ site))
        end
    | JsonRaised inst =>
        append_error
          ("Experienced an error when trying to access " +:+ url +:+ "; "
           +:+ "error was: " +:+ inst)
    end).

(** The order of [sorted] on [str]. *)
Definition str_le (s1 s2 : string) : Prop := String.leb s1 s2 = true.

#[global] Instance str_le_dec s1 s2 : Decision (str_le s1 s2).
Proof. unfold str_le. apply _. Defined.

(** [sorted(s)] of a set of [str] *)
Definition sorted (s : gset string) : list string :=
  merge_sort str_le (elements s).

(** [set(list1) ^ set(list2)] *)
Definition symmetric_difference (list1 list2 : list string) : gset string :=
  let s1 : gset string := list_to_set list1 in
  let s2 : gset string := list_to_set list2 in
  (s1 ∖ s2) ∪ (s2 ∖ s1).

Definition check_well_known_list `{Runtime} (field : string)
    (list1 list2 : list string) : list string :=
  if bool_decide (list1 = list2) then []
  else
    let diff := sorted (symmetric_difference list1 list2) in
    [ "Encountered an inequality between the PR submission and the "
      +:+ WELL_KNOWN +:+ " file:" +:+ newline
      +:+ tab +:+ field +:+ " was " +:+ repr_list list1 +:+ " in the PR, and "
      +:+ repr_list list2 +:+ " in the well-known." +:+ newline
      +:+ tab +:+ "Diff was: " +:+ repr_list diff +:+ "." ].

(** The keys of [d1 | d2], in the order the merged dict iterates them. *)
Definition union_keys {V} (d1 d2 : dict V) : list string :=
  keys d1 ++ filter (λ k, k ∉ keys d1) (keys d2).

Definition find_invalid_well_known `{Runtime} (check_sets : dict RwsSet) : M unit :=
  for_each check_sets (λ '(primary_key, curr_rws_set),
    let url := primary_key +:+ WELL_KNOWN in
    r ← open_and_load_json url;
    match r with
    | Loaded json_schema =>
        let well_known_set :=
          RwsSet_init (wk_ccTLDs json_schema) (wk_primary json_schema)
            (wk_associatedSites json_schema) (wk_serviceSites json_schema) in
        when (bool_decide (primary well_known_set ≠ primary curr_rws_set))
          (append_error
             ("The " +:+ WELL_KNOWN +:+ " set's primary ("
              +:+ Str.of_option (primary well_known_set) +:+ ") did not equal "
              +:+ "the PR set's primary ("
              +:+ Str.of_option (primary curr_rws_set) +:+ ")"));;
        extend_errors
          (check_well_known_list "associatedSites"
             (associated_sites curr_rws_set) (associated_sites well_known_set));;
        extend_errors
          (check_well_known_list "serviceSites"
             (service_sites curr_rws_set) (service_sites well_known_set));;
        for_each (union_keys (ccTLDs curr_rws_set) (ccTLDs well_known_set))
          (λ aliased_site,
             extend_errors
               (check_well_known_list (aliased_site +:+ " alias list")
                  (default [] (dict_get (ccTLDs curr_rws_set) aliased_site))
                  (default [] (dict_get (ccTLDs well_known_set) aliased_site))))
    | JsonRaised inst =>
        append_error
          ("Experienced an error when trying to access " +:+ url
           +:+ "; error was: " +:+ inst)
    end;;
    check_list_sites primary_key
      (associated_sites curr_rws_set ++ service_sites curr_rws_set
       ++ concat (values (ccTLDs curr_rws_set)))).

Definition find_invalid_removal `{Runtime} (subtracted_sets : dict RwsSet) : M unit :=
  for_each (keys subtracted_sets) (λ primary,
    let url := primary +:+ WELL_KNOWN in
    r ← request (requests_get url true);
    match r with
    | Responded r =>
        when (bool_decide (status_code r ≠ 404))
          (append_error
             ("The set associated with " +:+ primary
              +:+ " was removed from the list, but " +:+ url
              +:+ " does not return error 404."))
    | HttpRaised inst =>
        append_error
          ("Unexpected error when accessing " +:+ url
           +:+ "; Received error: " +:+ inst)
    end).

(** The set of top-level labels [find_invalid_alias_eSLDs] accepts for the
    aliases of a site whose own last label is [aliased_tld]. *)
Definition icann_check (me : RwsCheck) (aliased_tld : string) : gset string :=
  if bool_decide (aliased_tld ∈ icanns me) then icanns me ∪ {["com"]}
  else icanns me.

Definition find_invalid_alias_eSLDs `{Runtime} (check_sets : dict RwsSet) : M unit :=
  me ← get_self;
  for_each check_sets (λ '(primary, curr_set),
    for_each (ccTLDs curr_set) (λ '(aliased_site, aliases),
      when (negb (includes curr_set aliased_site false))
        (append_error
           ("The aliased site " +:+ aliased_site
            +:+ " contained within the ccTLDs must be a "
            +:+ "primary, associated site, or service site "
            +:+ "within the firsty pary set for " +:+ primary));;
      let aliased_eSLD := Str.first (Str.split "." aliased_site) in
      let aliased_tld := Str.last (Str.split "." aliased_site) in
      let icann_check := icann_check me aliased_tld in
      let variants :=
        map (λ site,
               (site, Str.first (Str.split "." site), Str.last (Str.split "." site)))
            aliases in
      for_each variants (λ '(site, eSLD, tld),
        when (bool_decide (eSLD ≠ aliased_eSLD))
          (append_error
             ("The following top level domain must match: " +:+ aliased_site
              +:+ ", but is instead: " +:+ site));;
        when (bool_decide (tld ∉ icann_check))
          (append_error
             ("The provided country code: " +:+ tld +:+ ", in: " +:+ site
              +:+ " is not a ICANN registered country code"))))).

(** What [find_robots_tag] does for one service site. *)
Definition find_robots_tag_site `{Runtime} (service_site : string) : M unit :=
  r ← request (requests_get service_site false);
  match r with
  | Responded r_service =>
      match x_robots_tag r_service with
      | None =>
          append_error
            ("The service site " +:+ service_site
             +:+ " does not have an X-Robots-Tag in its " +:+ "header")
      | Some robots_tag =>
          if Str.contains ":" robots_tag then
            append_error
              ("The service site " +:+ service_site
               +:+ " contains an 'X-Robots-Tag' "
               +:+ "that does not meet the policy requirements")
          else
            when (negb (Str.contains "none" robots_tag)
                  && negb (Str.contains "noindex" robots_tag))
              (append_error
                 ("The service site " +:+ service_site +:+ " does not have a "
                  +:+ "'noindex' or 'none' tag in its header"))
      end
  | HttpRaised inst =>
      append_error
        ("Unexpected error for service site: " +:+ service_site
         +:+ "; Received error: " +:+ inst)
  end.

Definition find_robots_tag `{Runtime} (check_sets : dict RwsSet) : M unit :=
  for_each (values check_sets) (λ curr_set,
    for_each (service_sites curr_set) find_robots_tag_site).

Definition exception_retries_ads : string := "Max retries exceeded with url: /ads.txt".
Definition exception_retries : string := "Max retries exceeded with url: /".
Definition exception_timeout : string := "Read timed out. (read timeout=10)".

(** What [find_ads_txt] does for one service site. *)
Definition find_ads_txt_site `{Runtime} (service_site : string) : M unit :=
  let ads_site := service_site +:+ "/ads.txt" in
  r ← request (requests_get ads_site true);
  match r with
  | Responded r =>
      when (bool_decide (status_code r = 200))
        (append_error
           ("The service site " +:+ service_site
            +:+ " has an ads.txt file, this violates "
            +:+ "the policies for service sites"))
  | HttpRaised inst =>
      when (negb (Str.contains exception_retries_ads inst))
        (when (negb (Str.contains exception_timeout inst))
           (append_error
              ("Unexpected error for service site: " +:+ service_site +:+ newline
               +:+ "Received error: " +:+ inst)))
  end.

Definition find_ads_txt `{Runtime} (check_sets : dict RwsSet) : M unit :=
  for_each (values check_sets) (λ curr_set,
    for_each (service_sites curr_set) find_ads_txt_site).

Definition check_for_service_redirect `{Runtime} (check_sets : dict RwsSet) : M unit :=
  for_each (values check_sets) (λ curr_set,
    for_each (service_sites curr_set) (λ service_site,
      r ← request (requests_get service_site true);
      match r with
      | Responded r =>
          when (bool_decide (status_code r < 400) || bool_decide (600 ≤ status_code r))
            (when (bool_decide (url r = service_site)
                   || bool_decide (url r = service_site +:+ "/"))
               (append_error
                  ("The service site must not be an endpoint: " +:+ service_site)))
      | HttpRaised inst =>
          when (negb (Str.contains exception_retries inst))
            (when (negb (Str.contains exception_timeout inst))
               (append_error
                  ("Unexpected error for "
                   +:+ "service site: " +:+ service_site +:+ newline
                   +:+ "Received error: " +:+ inst)))
      end)).

(** The checks of the class, each with its arguments. *)
Inductive check :=
  | LoadSets
  | HasAllRationales (check_sets : dict RwsSet)
  | CheckExclusivity (check_sets : dict RwsSet)
  | CheckAssociatedCount (check_sets : dict RwsSet)
  | FindNonHttpsUrls (check_sets : dict RwsSet)
  | FindInvalidETLDPlus1 (check_sets : dict RwsSet)
  | CheckListSites (primary : string) (site_list : list string)
  | FindInvalidWellKnown (check_sets : dict RwsSet)
  | FindInvalidRemoval (subtracted_sets : dict RwsSet)
  | FindInvalidAliasESLDs (check_sets : dict RwsSet)
  | FindRobotsTag (check_sets : dict RwsSet)
  | FindAdsTxt (check_sets : dict RwsSet)
  | CheckForServiceRedirect (check_sets : dict RwsSet).

Definition run_check `{Runtime} (c : check) : M unit :=
  match c with
  | LoadSets => load_sets;; mret ()
  | HasAllRationales cs => has_all_rationales cs
  | CheckExclusivity cs => check_exclusivity cs
  | CheckAssociatedCount cs => check_associated_count cs
  | FindNonHttpsUrls cs => find_non_https_urls cs
  | FindInvalidETLDPlus1 cs => find_invalid_eTLD_Plus1 cs
  | CheckListSites p l => check_list_sites p l
  | FindInvalidWellKnown cs => find_invalid_well_known cs
  | FindInvalidRemoval cs => find_invalid_removal cs
  | FindInvalidAliasESLDs cs => find_invalid_alias_eSLDs cs
  | FindRobotsTag cs => find_robots_tag cs
  | FindAdsTxt cs => find_ads_txt cs
  | CheckForServiceRedirect cs => check_for_service_redirect cs
  end.

(** ** A concrete runtime and concrete submissions *)

(** A rendering of a list of [str] in the manner of Python's [repr], for
    strings that need no escaping. *)
Definition quoted (s : string) : string := "'" +:+ s +:+ "'".
Definition example_repr_list (l : list string) : string :=
  "[" +:+ String.concat ", " (quoted <$> l) +:+ "]".
Definition example_repr_set (s : gset string) : string :=
  "{" +:+ String.concat ", " (quoted <$> elements s) +:+ "}".

Definition ok_response (code : Z) (u : string) : http_result :=
  Responded {| status_code := code; url := u; x_robots_tag := None |}.

(** A network whose state counts the requests made: one service site serves
    an [ads.txt], one times out, one refuses connections, one resets the
    connection, and every other URL answers 404. *)
Definition example_requests_get (u : string) (allow_redirects : bool) (w : nat)
    : http_result * nat :=
  (if bool_decide (u = "https://svc-ads.example/ads.txt") then ok_response 200 u
   else if bool_decide (u = "https://svc-slow.example/ads.txt") then
     HttpRaised "HTTPSConnectionPool(host='svc-slow.example', port=443): Read timed out. (read timeout=10)"
   else if bool_decide (u = "https://svc-down.example/ads.txt") then
     HttpRaised "HTTPSConnectionPool(host='svc-down.example', port=443): Max retries exceeded with url: /ads.txt (Caused by NewConnectionError)"
   else if bool_decide (u = "https://svc-reset.example/ads.txt") then
     HttpRaised "('Connection aborted.', ConnectionResetError(104, 'Connection reset by peer'))"
   else ok_response 404 u,
   S w).

Definition example_runtime : Runtime := {|
  World := nat;
  urlopen_json_load := λ u w, (JsonRaised "HTTP Error 404: Not Found", S w);
  requests_get := example_requests_get;
  repr_list := example_repr_list;
  repr_set := example_repr_set
|}.

Definition no_suffixes : PublicSuffixList :=
  {| get_sld := λ _, None; get_tld := λ _, None |}.

Definition example_check (sites : list rws_record) : @state example_runtime :=
  @State example_runtime (RwsCheck_init sites no_suffixes ∅) O.


(** ** Vocabulary of the statements *)

(** The Set that stands for a record of the submission. *)
Definition set_of_record (r : rws_record) : RwsSet :=
  RwsSet_init (rec_ccTLDs r) (Some (rec_primary r))
    (rec_associatedSites r) (rec_serviceSites r).

(** The first record of [sets] whose primary is [p]. *)
Definition first_record (p : string) (sets : list rws_record) : option rws_record :=
  List.find (λ r, bool_decide (rec_primary r = p)) sets.

(** How often [p] occurs in [l]. *)
Definition occurrences (p : string) (l : list string) : nat :=
  length (filter (λ x, x = p) l).

Definition already_primary (p : string) : string :=
  p +:+ " is already a primary of another site".

(** [m] leaves the object as it was but for [error_list], to which it
    appends. *)
Definition errors_only `{Runtime} {A} (m : M A) : Prop :=
  ∀ s, ∃ msgs,
    self (exec m s) = set_error_list (error_list (self s) ++ msgs) (self s).

(** The warning of [check_associated_count] for the set of [primary]. *)
Definition associated_warning (primary : string) : string :=
  "Warning: the set for " +:+ primary
  +:+ " contains more than 5 associated sites.".

(** The warnings due for a collection: one for each Set with more than
    [ASSOCIATED_LIMIT] associated sites, in map order. *)
Definition associated_warnings (check_sets : dict RwsSet) : list string :=
  (λ item, associated_warning item.1)
  <$> filter (λ item, (ASSOCIATED_LIMIT < length (associated_sites item.2))%nat)
        check_sets.

(** The warnings due for a check. *)
Definition warnings_due (c : check) : list string :=
  match c with
  | CheckAssociatedCount check_sets => associated_warnings check_sets
  | _ => []
  end.

(** The checks that loop over the collection they are given. *)
Definition collection_checks : list (dict RwsSet → check) :=
  [ CheckAssociatedCount; FindNonHttpsUrls; FindInvalidETLDPlus1;
    FindInvalidWellKnown; FindInvalidRemoval; FindInvalidAliasESLDs;
    FindRobotsTag; FindAdsTxt; CheckForServiceRedirect ].

(** A run: checks executed one after the other. *)
Definition run_checks `{Runtime} (checks : list check) : M unit :=
  for_each checks run_check.

(** The state after [msgs] have been appended to [error_list]. *)
Definition log `{Runtime} (msgs : list string) (s : state) : state :=
  State (set_error_list (error_list (self s) ++ msgs) (self s)) (net s).

(** [m] returns [v] and appends [msgs] to [error_list], in whatever state it
    runs, and does nothing else. *)
Definition yields `{Runtime} {A} (m : M A) (v : A) (msgs : list string) : Prop :=
  ∀ s, m s = (v, log msgs s).

(** The first and the last ['.']-segment of a site. *)
Definition first_segment (site : string) : string := Str.first (Str.split "." site).
Definition last_segment (site : string) : string := Str.last (Str.split "." site).

(** The errors of [find_invalid_alias_eSLDs]. *)
Definition not_member_error (primary aliased_site : string) : string :=
  "The aliased site " +:+ aliased_site
  +:+ " contained within the ccTLDs must be a primary, associated site, or service site within the firsty pary set for "
  +:+ primary.
Definition eSLD_error (aliased_site site : string) : string :=
  "The following top level domain must match: " +:+ aliased_site
  +:+ ", but is instead: " +:+ site.
Definition country_code_error (site : string) : string :=
  "The provided country code: " +:+ last_segment site +:+ ", in: " +:+ site
  +:+ " is not a ICANN registered country code".

(** Membership of a site in a Set as primary, associated or service site. *)
Definition member_of (curr_set : RwsSet) (site : string) : Prop :=
  primary curr_set = Some site
  ∨ site ∈ associated_sites curr_set
  ∨ site ∈ service_sites curr_set.

(** The finding that an error of [find_invalid_alias_eSLDs] reports about
    the ccTLD entry [(aliased_site, aliases)] of the Set of [primary]. *)
Definition alias_finding (me : RwsCheck) (primary : string) (curr_set : RwsSet)
    (aliased_site : string) (aliases : list string) (e : string) : Prop :=
  (e = not_member_error primary aliased_site ∧ ¬ member_of curr_set aliased_site)
  ∨ ∃ alias, alias ∈ aliases ∧
      ((e = eSLD_error aliased_site alias
        ∧ first_segment alias ≠ first_segment aliased_site)
       ∨ (e = country_code_error alias
          ∧ last_segment alias
              ∉ (if decide (last_segment aliased_site ∈ icanns me)
                 then icanns me ∪ {["com"]} else icanns me))).

(** The errors for one alias of [aliased_site]. *)
Definition variant_errors (me : RwsCheck) (aliased_site site : string)
    : list string :=
  (if bool_decide (first_segment site ≠ first_segment aliased_site)
   then [eSLD_error aliased_site site] else [])
  ++ (if bool_decide (last_segment site
                        ∉ icann_check me (last_segment aliased_site))
      then [country_code_error site] else []).

(** The errors for one ccTLD entry. *)
Definition entry_errors (me : RwsCheck) (primary : string) (curr_set : RwsSet)
    (entry : string * list string) : list string :=
  (if negb (includes curr_set entry.1 false)
   then [not_member_error primary entry.1] else [])
  ++ concat (variant_errors me entry.1 <$> entry.2).

Definition alias_errors (me : RwsCheck) (check_sets : dict RwsSet) : list string :=
  concat ((λ item, concat (entry_errors me item.1 item.2 <$> ccTLDs item.2))
          <$> check_sets).

(** The errors of [has_all_rationales]. *)
Definition no_rationale_error (site : string) : string :=
  "There is no provided rationale for " +:+ site.
Definition rationale_required_error : string :=
  "A rationaleBySite field is required for this set, but none is provided. ".

(** The combined associated and service sites of a record. *)
Definition record_sites (rwset : rws_record) : list string :=
  default [] (rec_associatedSites rwset) ++ default [] (rec_serviceSites rwset).

(** What [has_all_rationales] reports about a record it does not skip: with
    a mapping, every listed site without an entry; without one, that the
    mapping is required. *)
Definition rationale_errors (rwset : rws_record) : list string :=
  match rec_rationaleBySite rwset with
  | Some r => no_rationale_error <$> filter (λ site, site ∉ dom r) (record_sites rwset)
  | None => [rationale_required_error]
  end.

(** The records of [sets] whose primary no earlier record has, [seen] being
    the primaries met so far. *)
Fixpoint first_records_from (seen : list string) (sets : list rws_record)
    : list rws_record :=
  match sets with
  | [] => []
  | r :: rest =>
      if decide (rec_primary r ∈ seen) then first_records_from seen rest
      else r :: first_records_from (seen ++ [rec_primary r]) rest
  end.

Definition first_records (sets : list rws_record) : list rws_record :=
  first_records_from [] sets.

(** The state with another list of submitted records. *)
Definition set_rws_sites (sites : list rws_record) (c : RwsCheck) : RwsCheck :=
  {| rws_sites := sites; etlds := etlds c; icanns := icanns c;
     error_list := error_list c; warning_texts := warning_texts c |}.

Definition with_sites `{Runtime} (sites : list rws_record) (s : state) : state :=
  State (set_rws_sites sites (self s)) (net s).

(** [m] does not depend on the submitted records: it reads the submission
    only through the arguments it was given. *)
Definition sites_blind `{Runtime} {A} (m : M A) : Prop :=
  ∀ sites s, m (with_sites sites s) = ((m s).1, with_sites sites (m s).2).

(** A submission that lists a primary twice; the site
    [https://late.example] occurs in the second record only. *)
Definition duplicate_submission : list rws_record :=
  [ {| rec_primary := "https://a.example";
       rec_ccTLDs := None;
       rec_associatedSites := Some ["https://a-assoc.example"];
       rec_serviceSites := None;
       rec_rationaleBySite :=
         Some {[ "https://a-assoc.example" := "same brand" ]} |};
    {| rec_primary := "https://a.example";
       rec_ccTLDs := None;
       rec_associatedSites := Some ["https://late.example"];
       rec_serviceSites := None;
       rec_rationaleBySite := Some ∅ |} ].

(** A submission of one record, a primary with a ccTLD alias: it lists no
    associated site, no service site and no rationale. *)
Definition aliases_only_submission : list rws_record :=
  [ {| rec_primary := "https://bare.example";
       rec_ccTLDs := Some [("https://bare.example", ["https://bare.de"])];
       rec_associatedSites := None;
       rec_serviceSites := None;
       rec_rationaleBySite := None |} ].

(** [load_sets] followed by [has_all_rationales] on what it returned. *)
Definition load_then_rationales `{Runtime} : M unit :=
  check_sets ← load_sets; has_all_rationales check_sets.

(** The errors of [find_ads_txt]. *)
Definition ads_txt_policy_error (service_site : string) : string :=
  "The service site " +:+ service_site
  +:+ " has an ads.txt file, this violates the policies for service sites".
Definition ads_txt_unexpected_error (service_site inst : string) : string :=
  "Unexpected error for service site: " +:+ service_site +:+ newline
  +:+ "Received error: " +:+ inst.

(** The service sites of a collection, in the order the checks visit them. *)
Definition all_service_sites (check_sets : dict RwsSet) : list string :=
  concat (service_sites <$> values check_sets).

(** The outcomes of requesting [address site] for each of [sites] in turn,
    and the network afterwards. *)
Fixpoint fetch_each `{Runtime} (address : string → string) (allow_redirects : bool)
    (sites : list string) (w : World) : list http_result * World :=
  match sites with
  | [] => ([], w)
  | site :: rest =>
      let '(r, w1) := requests_get (address site) allow_redirects w in
      let '(rs, w2) := fetch_each address allow_redirects rest w1 in
      (r :: rs, w2)
  end.

(** The requests of [find_ads_txt]: [<site>/ads.txt], redirects followed. *)
Definition fetch_ads_txt `{Runtime} (sites : list string) (w : World)
    : list http_result * World :=
  fetch_each (λ site, site +:+ "/ads.txt") true sites w.

(** The requests of [find_robots_tag]: the site itself, redirects not
    followed. *)
Definition fetch_headers `{Runtime} (sites : list string) (w : World)
    : list http_result * World :=
  fetch_each (λ site, site) false sites w.

(** The errors of [find_robots_tag]. *)
Definition robots_missing_error (service_site : string) : string :=
  "The service site " +:+ service_site
  +:+ " does not have an X-Robots-Tag in its header".
Definition robots_policy_error (service_site : string) : string :=
  "The service site " +:+ service_site
  +:+ " contains an 'X-Robots-Tag' that does not meet the policy requirements".
Definition robots_noindex_error (service_site : string) : string :=
  "The service site " +:+ service_site
  +:+ " does not have a 'noindex' or 'none' tag in its header".
Definition robots_unexpected_error (service_site inst : string) : string :=
  "Unexpected error for service site: " +:+ service_site
  +:+ "; Received error: " +:+ inst.

(** The diagnostic [find_robots_tag] owes a service site for the outcome of
    its request: at most one. *)
Definition robots_verdict (service_site : string) (r : http_result) : list string :=
  match r with
  | Responded r_service =>
      match x_robots_tag r_service with
      | None => [robots_missing_error service_site]
      | Some robots_tag =>
          if Str.contains ":" robots_tag then [robots_policy_error service_site]
          else if Str.contains "none" robots_tag then []
          else if Str.contains "noindex" robots_tag then []
          else [robots_noindex_error service_site]
      end
  | HttpRaised inst => [robots_unexpected_error service_site inst]
  end.

(** An outcome that calls for a diagnostic: status 200, or an exception whose
    text has neither the max-retries pattern for [/ads.txt] nor the read
    timeout pattern. *)
Definition ads_txt_flagged (r : http_result) : bool :=
  match r with
  | Responded r => bool_decide (status_code r = 200)
  | HttpRaised inst =>
      negb (Str.contains "Max retries exceeded with url: /ads.txt" inst)
      && negb (Str.contains "Read timed out. (read timeout=10)" inst)
  end.

(** The diagnostic for a flagged outcome. *)
Definition ads_txt_error (service_site : string) (r : http_result) : string :=
  match r with
  | Responded _ => ads_txt_policy_error service_site
  | HttpRaised inst => ads_txt_unexpected_error service_site inst
  end.

Definition ads_txt_verdict (service_site : string) (r : http_result) : list string :=
  if ads_txt_flagged r then [ads_txt_error service_site r] else [].

(** A collection whose service sites meet every kind of outcome of the
    example network. *)
Definition service_collection : dict RwsSet :=
  [ ("https://one.example",
     {| ccTLDs := []; primary := Some "https://one.example";
        associated_sites := [];
        service_sites := ["https://svc-ads.example"; "https://svc-slow.example"] |});
    ("https://two.example",
     {| ccTLDs := []; primary := Some "https://two.example";
        associated_sites := [];
        service_sites := ["https://svc-reset.example"; "https://svc-down.example";
                          "https://svc-gone.example"] |}) ].

(** A suffix oracle that recognizes the suffix [com]: strictly matched, the
    bare suffix of [com] is [com] itself, the bare suffix of [example.com] is
    [com], and the registrable domain of [example.com] is [example.com]. *)
Definition recognizes_com (psl : PublicSuffixList) : Prop :=
  get_tld psl "com" = Some "com"
  ∧ get_tld psl "example.com" = Some "com"
  ∧ get_sld psl "example.com" = Some "example.com".

(** An oracle whose only suffix is [com]: a domain whose last label is [com]
    has the bare suffix [com] and, as registrable domain, its last two labels
    (or [com] alone when it has no other label); any other domain is not
    recognized. *)
Definition com_oracle : PublicSuffixList :=
  let labels s := Str.split "." s in
  {| get_tld := λ s,
       if bool_decide (Str.last (labels s) = "com") then Some "com" else None;
     get_sld := λ s,
       if bool_decide (Str.last (labels s) = "com") then
         match reverse (labels s) with
         | _ :: label :: _ => Some (label +:+ ".com")
         | _ => Some "com"
         end
       else None |}.

Definition com_check : RwsCheck := RwsCheck_init [] com_oracle ∅.

(** The two lists of a permuted pair and of a pair that differs in content. *)
Definition listed_in_pr : list string :=
  ["https://b.example"; "https://a.example"].
Definition listed_permuted : list string :=
  ["https://a.example"; "https://b.example"].
Definition listed_elsewhere : list string :=
  ["https://c.example"; "https://a.example"].

(** The error of [check_exclusivity] about a primary. *)
Definition primary_overlap_error (primary : string) : string :=
  "This primary is already registered in another related website set: "
  +:+ primary.

(** The lists of sites [check_exclusivity] takes in turn after the primary:
    the associated sites, the service sites, each alias list. *)
Definition fields (rws : RwsSet) : list (list string) :=
  associated_sites rws :: service_sites rws :: values (ccTLDs rws).

Definition member_sites (rws : RwsSet) : list string := concat (fields rws).

(** No site of a list occurs in a later list. *)
Fixpoint pairwise_disjoint (fs : list (list string)) : Prop :=
  match fs with
  | [] => True
  | f :: rest => Forall (λ x, x ∉ concat rest) f ∧ pairwise_disjoint rest
  end.

#[global] Instance pairwise_disjoint_dec fs : Decision (pairwise_disjoint fs).
Proof. induction fs as [|f rest IH]; simpl; apply _. Defined.

(** The number of errors [check_exclusivity] appends, started without
    diagnostics. *)
Definition exclusivity_error_count `{Runtime} (check_sets : dict RwsSet) (w : World)
    : nat :=
  length (errors_of (exec (check_exclusivity check_sets)
                       (State (RwsCheck_init [] no_suffixes ∅) w))).

(** Two Sets with two sites in common: both are associated sites of the
    first; the second has one as associated and the other as service site. *)
Definition shares_a : string * RwsSet :=
  ("https://a.example",
   {| ccTLDs := []; primary := Some "https://a.example";
      associated_sites := ["https://x.example"; "https://y.example"];
      service_sites := [] |}).
Definition shares_b : string * RwsSet :=
  ("https://b.example",
   {| ccTLDs := []; primary := Some "https://b.example";
      associated_sites := ["https://x.example"];
      service_sites := ["https://y.example"] |}).

(** Two Sets of which the first has the primary of the second among its
    associated sites. *)
Definition claims_b : string * RwsSet :=
  ("https://a.example",
   {| ccTLDs := [("https://a.example", ["https://a.de"])];
      primary := Some "https://a.example";
      associated_sites := ["https://b.example"];
      service_sites := ["https://a-cdn.example"] |}).
Definition claimed_b : string * RwsSet :=
  ("https://b.example",
   {| ccTLDs := []; primary := Some "https://b.example";
      associated_sites := ["https://b-shop.example"];
      service_sites := [] |}).

(** A check whose only country code is [de], and two Sets that alias their
    primary with [https://example.com]: the primary of the first ends in a
    country code, that of the second does not. *)
Definition de_check : @state example_runtime :=
  @State example_runtime (RwsCheck_init [] no_suffixes {["de"]}) O.
Definition aliased_de : dict RwsSet :=
  [ ("https://example.de",
     {| ccTLDs := [("https://example.de", ["https://example.com"])];
        primary := Some "https://example.de";
        associated_sites := []; service_sites := [] |}) ].
Definition aliased_org : dict RwsSet :=
  [ ("https://example.org",
     {| ccTLDs := [("https://example.org", ["https://example.com"])];
        primary := Some "https://example.org";
        associated_sites := []; service_sites := [] |}) ].

(** ** Vocabulary of the further properties *)

(** The sites of a Set, each with the name of its field, in the order in
    which [find_non_https_urls] and [find_invalid_eTLD_Plus1] visit them: the
    primary, every aliased site followed by its aliases, the associated
    sites, the service sites. *)
Definition labelled_sites_of (item : string * RwsSet) : list (string * string) :=
  ("primary", item.1)
  :: concat ((λ entry : string * list string,
                ("aliased", entry.1) :: (pair "alias" <$> entry.2))
             <$> ccTLDs item.2)
  ++ (pair "associated" <$> associated_sites item.2)
  ++ (pair "service" <$> service_sites item.2).

Definition labelled_sites (check_sets : dict RwsSet) : list (string * string) :=
  concat (labelled_sites_of <$> check_sets).

(** The errors of [find_non_https_urls] and [find_invalid_eTLD_Plus1] about
    a site of a field. *)
Definition non_https_error (ls : string * string) : string :=
  "The provided " +:+ ls.1 +:+ " site does not begin with https:// " +:+ ls.2.
Definition not_eTLD_Plus1_error (ls : string * string) : string :=
  "The provided " +:+ ls.1 +:+ " site is not an eTLD+1: " +:+ ls.2.

(** The traversal of the two checks, for a test [ok] of a site and the
    error [err] of a field and a site. *)
Definition visit_sites `{Runtime} (ok : string → bool)
    (err : string * string → string) (check_sets : dict RwsSet) : M unit :=
  for_each check_sets (λ '(primary, curr_set),
    when (negb (ok primary)) (append_error (err ("primary", primary)));;
    for_each (ccTLDs curr_set) (λ '(aliased_site, aliases),
      when (negb (ok aliased_site)) (append_error (err ("aliased", aliased_site)));;
      for_each aliases (λ alias,
        when (negb (ok alias)) (append_error (err ("alias", alias)))));;
    for_each (associated_sites curr_set) (λ associated_site,
      when (negb (ok associated_site))
        (append_error (err ("associated", associated_site))));;
    for_each (service_sites curr_set) (λ service_site,
      when (negb (ok service_site))
        (append_error (err ("service", service_site))))).

(** The outcomes of the requests [io x], made for each [x] of [xs] in turn,
    and the network afterwards. *)
Fixpoint request_each `{Runtime} {A R} (io : A → World → R * World)
    (xs : list A) (w : World) : list R * World :=
  match xs with
  | [] => ([], w)
  | x :: rest =>
      let '(r, w1) := io x w in
      let '(rs, w2) := request_each io rest w1 in
      (r :: rs, w2)
  end.

(** The request of [open_and_load_json] for the well-known file of a site. *)
Definition load_well_known `{Runtime} (site : string) (w : World)
    : json_result * World :=
  urlopen_json_load (site +:+ WELL_KNOWN) w.

(** The errors of [check_list_sites]. *)
Definition no_primary_key_error (site : string) : string :=
  "The listed associated site site did not have primary as a key in its "
  +:+ WELL_KNOWN +:+ " file: " +:+ site.
Definition other_primary_error (primary site : string) : string :=
  "The listed associated site did not have " +:+ primary
  +:+ " listed as its primary: " +:+ site.
Definition access_error (site inst : string) : string :=
  "Experienced an error when trying to access " +:+ (site +:+ WELL_KNOWN)
  +:+ "; error was: " +:+ inst.

(** What [check_list_sites] owes a site for the outcome of its request. *)
Definition member_verdict (primary site : string) (r : json_result) : list string :=
  match r with
  | Loaded json_schema =>
      match wk_primary json_schema with
      | None => [no_primary_key_error site]
      | Some listed =>
          if bool_decide (listed ≠ primary) then [other_primary_error primary site]
          else []
      end
  | JsonRaised inst => [access_error site inst]
  end.

(** The errors of [find_invalid_removal]. *)
Definition not_removed_error (primary : string) : string :=
  "The set associated with " +:+ primary
  +:+ " was removed from the list, but " +:+ (primary +:+ WELL_KNOWN)
  +:+ " does not return error 404.".
Definition removal_unexpected_error (primary inst : string) : string :=
  "Unexpected error when accessing " +:+ (primary +:+ WELL_KNOWN)
  +:+ "; Received error: " +:+ inst.

Definition removal_verdict (primary : string) (r : http_result) : list string :=
  match r with
  | Responded r =>
      if bool_decide (status_code r ≠ 404) then [not_removed_error primary] else []
  | HttpRaised inst => [removal_unexpected_error primary inst]
  end.

(** The errors of [check_for_service_redirect]. *)
Definition endpoint_error (service_site : string) : string :=
  "The service site must not be an endpoint: " +:+ service_site.

Definition redirect_verdict (service_site : string) (r : http_result) : list string :=
  match r with
  | Responded r =>
      if (bool_decide (status_code r < 400) || bool_decide (600 ≤ status_code r))
         && (bool_decide (url r = service_site)
             || bool_decide (url r = service_site +:+ "/"))
      then [endpoint_error service_site] else []
  | HttpRaised inst =>
      if Str.contains "Max retries exceeded with url: /" inst then []
      else if Str.contains "Read timed out. (read timeout=10)" inst then []
      else [ads_txt_unexpected_error service_site inst]
  end.

(** The body of the loop of [check_for_service_redirect]. *)
Definition check_for_service_redirect_site `{Runtime} (service_site : string)
    : M unit :=
  r ← request (requests_get service_site true);
  match r with
  | Responded r =>
      when (bool_decide (status_code r < 400) || bool_decide (600 ≤ status_code r))
        (when (bool_decide (url r = service_site)
               || bool_decide (url r = service_site +:+ "/"))
           (append_error
              ("The service site must not be an endpoint: " +:+ service_site)))
  | HttpRaised inst =>
      when (negb (Str.contains exception_retries inst))
        (when (negb (Str.contains exception_timeout inst))
           (append_error
              ("Unexpected error for "
               +:+ "service site: " +:+ service_site +:+ newline
               +:+ "Received error: " +:+ inst)))
  end.

(** The requests of [find_invalid_well_known]: for a Set, the well-known
    file of its primary, to be compared with the Set, and then the
    well-known file of each of its member sites, to be checked for the
    primary. *)
Inductive probe :=
  | ManifestOf (primary_key : string) (curr_rws_set : RwsSet)
  | MemberOf (primary_key site : string).

Definition probe_site (pr : probe) : string :=
  match pr with
  | ManifestOf primary_key _ => primary_key
  | MemberOf _ site => site
  end.

Definition probes_of (item : string * RwsSet) : list probe :=
  ManifestOf item.1 item.2 :: (MemberOf item.1 <$> member_sites item.2).

Definition probes (check_sets : dict RwsSet) : list probe :=
  concat (probes_of <$> check_sets).

(** The Set [find_invalid_well_known] builds from a fetched object. *)
Definition well_known_set_of (json_schema : manifest) : RwsSet :=
  RwsSet_init (wk_ccTLDs json_schema) (wk_primary json_schema)
    (wk_associatedSites json_schema) (wk_serviceSites json_schema).

Definition primary_mismatch_error (well_known submitted : option string) : string :=
  "The " +:+ WELL_KNOWN +:+ " set's primary (" +:+ Str.of_option well_known
  +:+ ") did not equal the PR set's primary (" +:+ Str.of_option submitted +:+ ")".

(** What [find_invalid_well_known] owes a Set for the outcome of the request
    for its primary's well-known file. *)
Definition manifest_verdict `{Runtime} (primary_key : string) (curr_rws_set : RwsSet)
    (r : json_result) : list string :=
  match r with
  | Loaded json_schema =>
      let well_known_set := well_known_set_of json_schema in
      (if bool_decide (primary well_known_set ≠ primary curr_rws_set)
       then [primary_mismatch_error (primary well_known_set) (primary curr_rws_set)]
       else [])
      ++ check_well_known_list "associatedSites"
           (associated_sites curr_rws_set) (associated_sites well_known_set)
      ++ check_well_known_list "serviceSites"
           (service_sites curr_rws_set) (service_sites well_known_set)
      ++ concat
           ((λ aliased_site,
               check_well_known_list (aliased_site +:+ " alias list")
                 (default [] (dict_get (ccTLDs curr_rws_set) aliased_site))
                 (default [] (dict_get (ccTLDs well_known_set) aliased_site)))
            <$> union_keys (ccTLDs curr_rws_set) (ccTLDs well_known_set))
  | JsonRaised inst => [access_error primary_key inst]
  end.

Definition probe_verdict `{Runtime} (pr : probe) (r : json_result) : list string :=
  match pr with
  | ManifestOf primary_key curr_rws_set => manifest_verdict primary_key curr_rws_set r
  | MemberOf primary_key site => member_verdict primary_key site r
  end.

(** One request with its verdict. *)
Definition probe_body `{Runtime} (pr : probe) : M unit :=
  r ← request (load_well_known (probe_site pr));
  extend_errors (probe_verdict pr r).

(** The fetched object agrees with the Set: same primary, same associated
    and service sites in the same order, and the same alias list, an absent
    one counting as empty, under every key of either. *)
Definition manifest_agrees (curr_rws_set : RwsSet) (json_schema : manifest) : Prop :=
  let well_known_set := well_known_set_of json_schema in
  primary well_known_set = primary curr_rws_set
  ∧ associated_sites curr_rws_set = associated_sites well_known_set
  ∧ service_sites curr_rws_set = service_sites well_known_set
  ∧ ∀ aliased_site,
      aliased_site ∈ keys (ccTLDs curr_rws_set)
      ∨ aliased_site ∈ keys (ccTLDs well_known_set) →
      default [] (dict_get (ccTLDs curr_rws_set) aliased_site)
      = default [] (dict_get (ccTLDs well_known_set) aliased_site).

(** The outcome that a probe accepts. *)
Definition probe_accepts (pr : probe) (r : json_result) : Prop :=
  ∃ json_schema, r = Loaded json_schema ∧
    match pr with
    | ManifestOf _ curr_rws_set => manifest_agrees curr_rws_set json_schema
    | MemberOf primary_key _ => wk_primary json_schema = Some primary_key
    end.

(** The network serves, whenever it is asked, a well-known file that every
    probe of the collection accepts. *)
Definition publishes `{Runtime} (check_sets : dict RwsSet) : Prop :=
  ∀ pr, pr ∈ probes check_sets →
    ∀ w, probe_accepts pr (load_well_known (probe_site pr) w).1.

(** A Set and a network on which its primary serves the Set itself and its
    member sites serve a file that names the primary. *)
Definition published_set : string * RwsSet :=
  ("https://one.example",
   {| ccTLDs := [("https://one.example", ["https://one.de"])];
      primary := Some "https://one.example";
      associated_sites := ["https://one-shop.example"];
      service_sites := ["https://one-cdn.example"] |}).

Definition published_manifest : manifest :=
  {| wk_ccTLDs := Some [("https://one.example", ["https://one.de"])];
     wk_primary := Some "https://one.example";
     wk_associatedSites := Some ["https://one-shop.example"];
     wk_serviceSites := Some ["https://one-cdn.example"] |}.

Definition member_manifest : manifest :=
  {| wk_ccTLDs := None; wk_primary := Some "https://one.example";
     wk_associatedSites := None; wk_serviceSites := None |}.

Definition publishing_runtime : Runtime := {|
  World := nat;
  urlopen_json_load := λ u w,
    (if bool_decide (u = "https://one.example" +:+ WELL_KNOWN)
     then Loaded published_manifest
     else if bool_decide (u ∈ (λ site, site +:+ WELL_KNOWN)
                              <$> member_sites published_set.2)
     then Loaded member_manifest
     else JsonRaised "HTTP Error 404: Not Found",
     S w);
  requests_get := example_requests_get;
  repr_list := example_repr_list;
  repr_set := example_repr_set
|}.

Definition publishing_check : @state publishing_runtime :=
  @State publishing_runtime (RwsCheck_init [] no_suffixes ∅) O.

(** The site lists of the Sets of a collection, in the order in which
    [check_exclusivity] takes them. *)
Definition all_member_fields (check_sets : dict RwsSet) : list (list string) :=
  concat (fields <$> values check_sets).

(** No primary is a member site of a Set iterated before its own, [seen]
    being the member sites met so far. *)
Fixpoint primaries_unclaimed (seen : list string) (check_sets : dict RwsSet) : Prop :=
  match check_sets with
  | [] => True
  | (primary, rws) :: rest =>
      (primary ∉ seen) ∧ primaries_unclaimed (seen ++ member_sites rws) rest
  end.

#[global] Instance primaries_unclaimed_dec seen check_sets :
  Decision (primaries_unclaimed seen check_sets).
Proof.
  revert seen. induction check_sets as [|[p rws] rest IH]; intros seen; simpl; apply _.
Defined.

(** A submission whose two records have different primaries. *)
Definition distinct_submission : list rws_record :=
  [ {| rec_primary := "https://a.example";
       rec_ccTLDs := None;
       rec_associatedSites := Some ["https://a-assoc.example"];
       rec_serviceSites := None;
       rec_rationaleBySite :=
         Some {[ "https://a-assoc.example" := "same brand" ]} |};
    {| rec_primary := "https://b.example";
       rec_ccTLDs := None;
       rec_associatedSites := None;
       rec_serviceSites := Some ["https://b-cdn.example"];
       rec_rationaleBySite := Some ∅ |} ].

(** [m] makes no request: it leaves the network as it was. *)
Definition offline `{Runtime} {A} (m : M A) : Prop :=
  ∀ s, net (exec m s) = net s.

(** ** The steps of [check_exclusivity] *)

(** A category step: the primary of a Set, or one of its site lists with
    the text that reports its overlap. *)
Inductive category :=
  | PrimaryStep (primary : string)
  | SitesStep (report : string) (sites : list string).

Definition associated_report : string :=
  "These associated sites are already registered in another related website set: ".
Definition service_report : string :=
  "These service sites are already registered in another related website set: ".
Definition ccTLD_report : string :=
  "These ccTLD sites are already registered in another related website set: ".

(** The steps of a Set, in order: the primary, the associated sites, the
    service sites, each alias list. *)
Definition categories_of (item : string * RwsSet) : list category :=
  PrimaryStep item.1
  :: SitesStep associated_report (associated_sites item.2)
  :: SitesStep service_report (service_sites item.2)
  :: (SitesStep ccTLD_report <$> values (ccTLDs item.2)).

Definition categories (check_sets : dict RwsSet) : list category :=
  concat (categories_of <$> check_sets).

(** A step overlaps the claimed set [site_list]: its primary is in it, or
    its sites intersect it. *)
Definition overlaps (site_list : gset string) (cat : category) : bool :=
  match cat with
  | PrimaryStep primary => bool_decide (primary ∈ site_list)
  | SitesStep _ sites => bool_decide (list_to_set sites ∩ site_list ≠ (∅ : gset string))
  end.

(** The error for a step that overlaps. *)
Definition overlap_error `{Runtime} (site_list : gset string) (cat : category)
    : string :=
  match cat with
  | PrimaryStep primary => primary_overlap_error primary
  | SitesStep report sites => report +:+ repr_set (list_to_set sites ∩ site_list)
  end.

(** What a step without overlap adds to the claimed set: the sites of a
    list; for a primary, what [site_list.update(primary)] adds. *)
Definition claimed_by (cat : category) : gset string :=
  match cat with
  | PrimaryStep primary => list_to_set (Str.chars primary)
  | SitesStep _ sites => list_to_set sites
  end.

(** The claimed set after the steps [cats]: a step adds to it only when it
    does not overlap. *)
Fixpoint claimed_after (site_list : gset string) (cats : list category)
    : gset string :=
  match cats with
  | [] => site_list
  | cat :: rest =>
      if overlaps site_list cat then claimed_after site_list rest
      else claimed_after (site_list ∪ claimed_by cat) rest
  end.

(** The errors of the steps [cats]: one for each step that overlaps the set
    claimed by the steps before it. *)
Fixpoint exclusivity_errors `{Runtime} (site_list : gset string)
    (cats : list category) : list string :=
  match cats with
  | [] => []
  | cat :: rest =>
      if overlaps site_list cat
      then overlap_error site_list cat :: exclusivity_errors site_list rest
      else exclusivity_errors (site_list ∪ claimed_by cat) rest
  end.

(** What step [i] of [cats] appends: an error when it overlaps the set
    claimed by the steps before it, nothing otherwise. *)
Definition step_errors `{Runtime} (site_list : gset string)
    (cats : list category) (i : nat) (cat : category) : list string :=
  let claimed := claimed_after site_list (take i cats) in
  if overlaps claimed cat then [overlap_error claimed cat] else [].

(** ** What every check owes its input *)

(** The primaries that repeat an earlier one, [seen] being those met so
    far. *)
Fixpoint repeated_primaries (seen primaries : list string) : list string :=
  match primaries with
  | [] => []
  | p :: rest =>
      if decide (p ∈ seen) then p :: repeated_primaries seen rest
      else repeated_primaries (seen ++ [p]) rest
  end.

(** The errors a check owes, element by element of its whole input: for a
    check of the submission, the findings about every record, Set or site;
    for a remote check, the verdicts on the outcomes of the requests made
    for every site in turn. *)
Definition check_findings `{Runtime} (c : check) (s : state) : list string :=
  match c with
  | LoadSets =>
      already_primary
      <$> repeated_primaries [] (rec_primary <$> rws_sites (self s))
  | HasAllRationales check_sets =>
      concat (rationale_errors
              <$> filter (λ rwset, rec_primary rwset ∈ keys check_sets)
                    (rws_sites (self s)))
  | CheckExclusivity check_sets => exclusivity_errors ∅ (categories check_sets)
  | CheckAssociatedCount _ => []
  | FindNonHttpsUrls check_sets =>
      non_https_error
      <$> filter (λ ls, url_is_https ls.2 = false) (labelled_sites check_sets)
  | FindInvalidETLDPlus1 check_sets =>
      not_eTLD_Plus1_error
      <$> filter (λ ls, is_eTLD_Plus1 (self s) ls.2 = false)
            (labelled_sites check_sets)
  | CheckListSites primary site_list =>
      concat (zip_with (member_verdict primary) site_list
                (request_each load_well_known site_list (net s)).1)
  | FindInvalidWellKnown check_sets =>
      concat (zip_with probe_verdict (probes check_sets)
                (request_each (λ pr, load_well_known (probe_site pr))
                   (probes check_sets) (net s)).1)
  | FindInvalidRemoval subtracted_sets =>
      concat (zip_with removal_verdict (keys subtracted_sets)
                (fetch_each (λ primary, primary +:+ WELL_KNOWN) true
                   (keys subtracted_sets) (net s)).1)
  | FindInvalidAliasESLDs check_sets => alias_errors (self s) check_sets
  | FindRobotsTag check_sets =>
      concat (zip_with robots_verdict (all_service_sites check_sets)
                (fetch_headers (all_service_sites check_sets) (net s)).1)
  | FindAdsTxt check_sets =>
      concat (zip_with ads_txt_verdict (all_service_sites check_sets)
                (fetch_ads_txt (all_service_sites check_sets) (net s)).1)
  | CheckForServiceRedirect check_sets =>
      concat (zip_with redirect_verdict (all_service_sites check_sets)
                (fetch_each (λ site, site) true
                   (all_service_sites check_sets) (net s)).1)
  end.

(** The network after a check: that left by its requests, made for every
    site in turn; a check of the submission leaves it as it was. *)
Definition network_after `{Runtime} (c : check) (s : state) : World :=
  match c with
  | CheckListSites _ site_list =>
      (request_each load_well_known site_list (net s)).2
  | FindInvalidWellKnown check_sets =>
      (request_each (λ pr, load_well_known (probe_site pr))
         (probes check_sets) (net s)).2
  | FindInvalidRemoval subtracted_sets =>
      (fetch_each (λ primary, primary +:+ WELL_KNOWN) true
         (keys subtracted_sets) (net s)).2
  | FindRobotsTag check_sets =>
      (fetch_headers (all_service_sites check_sets) (net s)).2
  | FindAdsTxt check_sets =>
      (fetch_ads_txt (all_service_sites check_sets) (net s)).2
  | CheckForServiceRedirect check_sets =>
      (fetch_each (λ site, site) true (all_service_sites check_sets) (net s)).2
  | _ => net s
  end.

(** ** The text of [check_well_known_list] *)

(** The diagnostic for a field whose list reads [in_pr] in the submission
    and [in_well_known] in the well-known file, [diff] being the text of
    their difference. *)
Definition inequality_error (field in_pr in_well_known diff : string) : string :=
  "Encountered an inequality between the PR submission and the "
  +:+ WELL_KNOWN +:+ " file:" +:+ newline
  +:+ tab +:+ field +:+ " was " +:+ in_pr +:+ " in the PR, and "
  +:+ in_well_known +:+ " in the well-known." +:+ newline
  +:+ tab +:+ "Diff was: " +:+ diff +:+ ".".

(** * Properties *)

(** ** The monad *)

Section Monad.
Context `{Runtime}.

Lemma exec_bind {A B} (m : M A) (k : A → M B) s :
  exec (m ≫= k) s = exec (k (m s).1) (exec m s).
Proof. unfold exec, mbind, M_bind. by destruct (m s). Qed.

Lemma run_bind {A B} (m : M A) (k : A → M B) s :
  (m ≫= k) s = k (m s).1 (m s).2.
Proof. unfold mbind, M_bind. by destruct (m s). Qed.

Lemma for_each_app {A} (xs ys : list A) (body : A → M unit) s :
  for_each (xs ++ ys) body s = (for_each xs body;; for_each ys body) s.
Proof.
  revert s. induction xs as [|x xs IH]; intros s; simpl.
  - by rewrite run_bind.
  - rewrite !run_bind. simpl. by rewrite IH, run_bind.
Qed.

Lemma for_fold_app {A S} (xs ys : list A) (acc : S) (body : S → A → M S) s :
  for_fold (xs ++ ys) acc body s
  = (acc' ← for_fold xs acc body; for_fold ys acc' body) s.
Proof.
  revert acc s. induction xs as [|x xs IH]; intros acc s; simpl.
  - by rewrite run_bind.
  - rewrite !run_bind. simpl. by rewrite IH, run_bind.
Qed.

End Monad.

(** ** Lists *)

Lemma elem_of_concat {A} (x : A) (ls : list (list A)) :
  x ∈ concat ls ↔ ∃ l, x ∈ l ∧ l ∈ ls.
Proof.
  induction ls as [|l ls IH]; simpl.
  - split; [by intros ?%elem_of_nil | by intros (? & _ & ?%elem_of_nil)].
  - rewrite elem_of_app, IH. split.
    + intros [?|(l' & ? & ?)]; [exists l | exists l']; split; try done;
        [left | by right].
    + intros (l' & Hx & [->|?]%elem_of_cons); [by left | right; by exists l'].
Qed.

(** ** Dictionaries *)

Section Dict.
Context {V : Type}.
Implicit Types d : dict V.

Lemma dict_get_None d k : dict_get d k = None ↔ k ∉ keys d.
Proof.
  unfold keys. induction d as [|[k' v] d IH]; simpl.
  - split; [intros _; apply not_elem_of_nil | done].
  - rewrite not_elem_of_cons. case_decide; subst.
    + split; [done | intros [? _]; done].
    + rewrite IH. naive_solver.
Qed.

Lemma dict_get_app d1 d2 k :
  dict_get (d1 ++ d2) k
  = match dict_get d1 k with Some v => Some v | None => dict_get d2 k end.
Proof.
  induction d1 as [|[k' v] d1 IH]; simpl; [done|]. by case_decide.
Qed.

Lemma keys_app d1 d2 : keys (d1 ++ d2) = keys d1 ++ keys d2.
Proof. unfold keys. apply fmap_app. Qed.

End Dict.

(** ** [load_sets] *)

Lemma occurrences_cons p x l :
  occurrences p (x :: l) = ((if decide (x = p) then 1 else 0) + occurrences p l)%nat.
Proof. unfold occurrences. rewrite filter_cons. by case_decide. Qed.

Lemma load_sets_step_eq cs errs r :
  load_sets_step (cs, errs) r
  = if bool_decide (rec_primary r ∈ keys cs)
    then (cs, errs ++ [already_primary (rec_primary r)])
    else (cs ++ [(rec_primary r, set_of_record r)], errs).
Proof. reflexivity. Qed.

Lemma load_sets_loop_spec sets : ∀ cs errs,
  NoDup (keys cs) →
  let res := foldl load_sets_step (cs, errs) sets in
  NoDup (keys res.1) ∧
  (∀ p, dict_get res.1 p
        = match dict_get cs p with
          | Some v => Some v
          | None => set_of_record <$> first_record p sets
          end) ∧
  ∃ dups,
    res.2 = errs ++ (already_primary <$> dups) ∧
    dups `sublist_of` (rec_primary <$> sets) ∧
    ∀ p, occurrences p dups
         = (occurrences p (rec_primary <$> sets)
            - (if decide (p ∈ keys cs) then 0 else 1))%nat.
Proof.
  induction sets as [|r sets IH]; intros cs errs Hnd;
    [simpl | rewrite fmap_cons; cbn [foldl]; rewrite load_sets_step_eq].
  - split; [done|]. split; [intros p; by destruct (dict_get cs p)|].
    exists []. simpl. rewrite app_nil_r. split_and!; [done..|].
    intros p. by case_decide.
  - case_bool_decide as Hin.
    + destruct (IH cs (errs ++ [already_primary (rec_primary r)]) Hnd)
        as (Hnd' & Hget & dups & Herr & Hsub & Hocc).
      split; [done|]. split.
      * intros p. rewrite Hget. destruct (dict_get cs p) eqn:Hp; [done|].
        unfold first_record. simpl. case_bool_decide as Heq; [|done].
        subst p. by apply dict_get_None in Hp.
      * exists (rec_primary r :: dups). split_and!.
        -- rewrite Herr. by rewrite <-app_assoc.
        -- by apply sublist_skip.
        -- intros p. rewrite !occurrences_cons, Hocc.
           repeat case_decide; subst; try done; lia.
    + assert (NoDup (keys (cs ++ [(rec_primary r, set_of_record r)]))) as Hnd2.
      { rewrite keys_app. apply NoDup_app. split_and!; [done| |].
        - intros x Hx Hx'. apply list_elem_of_singleton in Hx'. by subst.
        - apply NoDup_singleton. }
      destruct (IH _ errs Hnd2) as (Hnd' & Hget & dups & Herr & Hsub & Hocc).
      split; [done|]. split.
      * intros p. rewrite Hget, dict_get_app. destruct (dict_get cs p) eqn:Hp; [done|].
        unfold first_record. simpl. case_decide as Heq.
        -- by rewrite bool_decide_eq_true_2.
        -- by rewrite bool_decide_eq_false_2.
      * exists dups. split_and!; [done| by apply sublist_cons|].
        intros p. rewrite occurrences_cons, Hocc, keys_app.
        repeat case_decide; subst; simpl in *; try lia.
        all: set_solver.
Qed.

Lemma load_sets_run `{Runtime} (s : state) :
  load_sets s
  = ((load_sets_loop (rws_sites (self s))).1,
     State (set_error_list
              (error_list (self s) ++ (load_sets_loop (rws_sites (self s))).2)
              (self s))
           (net s)).
Proof.
  unfold load_sets. rewrite run_bind. simpl.
  by destruct (load_sets_loop (rws_sites (self s))).
Qed.

(** C4.  [load_sets] returns a map without duplicate keys, in which every
    primary of the document is bound to the Set of the first record that
    lists it; the errors it appends are one ["<primary> is already a primary
    of another site"] for each occurrence of a primary after its first, in
    document order, so a primary listed [n] times yields [n - 1] of them. *)
Theorem load_sets_keeps_first_record `{Runtime} (s : state) :
  let check_sets := (load_sets s).1 in
  let sets := rws_sites (self s) in
  NoDup (keys check_sets) ∧
  (∀ p, dict_get check_sets p = set_of_record <$> first_record p sets) ∧
  ∃ dups,
    errors_of (exec load_sets s) = errors_of s ++ (already_primary <$> dups) ∧
    dups `sublist_of` (rec_primary <$> sets) ∧
    (∀ p, occurrences p dups = pred (occurrences p (rec_primary <$> sets))).
Proof.
  intros check_sets sets. subst check_sets sets. unfold exec. rewrite load_sets_run.
  destruct (load_sets_loop_spec (rws_sites (self s)) [] [] (NoDup_nil_2))
    as (Hnd & Hget & dups & Herr & Hsub & Hocc).
  split; [done|]. split; [intros p; by rewrite Hget|].
  exists dups. split_and!; [|done|].
  - unfold errors_of, load_sets_loop. cbn -[foldl]. f_equal. exact Herr.
  - intros p. rewrite Hocc. case_decide as Hp; [by apply elem_of_nil in Hp | lia].
Qed.

(** ** Frame rules: what a computation may change *)

Section Frame.
Context `{Runtime}.

Lemma set_error_list_nil c : set_error_list (error_list c ++ []) c = c.
Proof. destruct c. unfold set_error_list. simpl. by rewrite app_nil_r. Qed.

Lemma set_error_list_twice l1 l2 c :
  set_error_list (error_list (set_error_list l1 c) ++ l2) (set_error_list l1 c)
  = set_error_list (l1 ++ l2) c.
Proof. reflexivity. Qed.

Lemma errors_only_ret {A} (x : A) : errors_only (mret x).
Proof. intros s. exists []. by rewrite set_error_list_nil. Qed.

Lemma errors_only_bind {A B} (m : M A) (k : A → M B) :
  errors_only m → (∀ a, errors_only (k a)) → errors_only (m ≫= k).
Proof.
  intros Hm Hk s. rewrite exec_bind.
  destruct (Hm s) as [l1 H1]. destruct (Hk (m s).1 (exec m s)) as [l2 H2].
  exists (l1 ++ l2). rewrite H2, H1. unfold set_error_list. simpl.
  by rewrite app_assoc.
Qed.

Lemma errors_only_get_self : errors_only get_self.
Proof. intros s. exists []. by rewrite set_error_list_nil. Qed.

Lemma errors_only_request {A} (f : World → A * World) : errors_only (request f).
Proof.
  intros s. exists []. rewrite set_error_list_nil.
  unfold exec, request. by destruct (f (net s)).
Qed.

Lemma errors_only_extend msgs : errors_only (extend_errors msgs).
Proof. intros s. by exists msgs. Qed.

Lemma errors_only_append msg : errors_only (append_error msg).
Proof. apply errors_only_extend. Qed.

Lemma errors_only_when b (m : M unit) : errors_only m → errors_only (when b m).
Proof. destruct b; [done | intros _; apply errors_only_ret]. Qed.

Lemma errors_only_for_each {A} (xs : list A) (body : A → M unit) :
  (∀ x, errors_only (body x)) → errors_only (for_each xs body).
Proof.
  intros Hbody. induction xs as [|x xs IH]; simpl.
  - apply errors_only_ret.
  - apply errors_only_bind; [apply Hbody | by intros _].
Qed.

Lemma errors_only_for_fold {A S} (xs : list A) (acc : S) (body : S → A → M S) :
  (∀ acc x, errors_only (body acc x)) → errors_only (for_fold xs acc body).
Proof.
  intros Hbody. revert acc. induction xs as [|x xs IH]; intros acc; simpl.
  - apply errors_only_ret.
  - apply errors_only_bind; [apply Hbody | done].
Qed.

Lemma errors_only_prefix {A} (m : M A) s :
  errors_only m →
  errors_of s `prefix_of` errors_of (exec m s)
  ∧ warnings_of (exec m s) = warnings_of s.
Proof.
  intros Hm. destruct (Hm s) as [msgs Hs]. unfold errors_of, warnings_of.
  rewrite Hs. simpl. split; [by apply prefix_app_r | done].
Qed.

End Frame.

(** Decomposes a computation along its binds, loops and branches. *)
Ltac frame_step :=
  first
    [ apply errors_only_ret
    | apply errors_only_get_self
    | apply errors_only_request
    | apply errors_only_extend
    | apply errors_only_append
    | apply errors_only_when
    | apply errors_only_bind; [| intros ?]
    | apply errors_only_for_each; intros ?
    | apply errors_only_for_fold; intros ? ?
    | match goal with
      | |- errors_only (match ?x with _ => _ end) => destruct x
      | |- errors_only (if ?b then _ else _) => destruct b
      end ].

Ltac frame := repeat frame_step.

Section Checks_frame.
Context `{Runtime}.

Lemma load_sets_errors_only : errors_only load_sets.
Proof.
  unfold load_sets. frame_step; [frame|].
  destruct (load_sets_loop (rws_sites a)). frame.
Qed.

Lemma has_all_rationales_errors_only cs : errors_only (has_all_rationales cs).
Proof. unfold has_all_rationales, has_all_rationales_body. frame. Qed.

Lemma exclusivity_step_errors_only prefix sites sl :
  errors_only (exclusivity_step prefix sites sl).
Proof. unfold exclusivity_step. frame. Qed.

Lemma check_exclusivity_errors_only cs : errors_only (check_exclusivity cs).
Proof.
  unfold check_exclusivity, check_exclusivity_loop, check_exclusivity_body.
  frame; apply exclusivity_step_errors_only.
Qed.

Lemma find_non_https_urls_errors_only cs : errors_only (find_non_https_urls cs).
Proof. unfold find_non_https_urls. frame. Qed.

Lemma find_invalid_eTLD_Plus1_errors_only cs :
  errors_only (find_invalid_eTLD_Plus1 cs).
Proof. unfold find_invalid_eTLD_Plus1. frame. Qed.

Lemma check_list_sites_errors_only p l : errors_only (check_list_sites p l).
Proof. unfold check_list_sites, open_and_load_json. frame. Qed.

Lemma find_invalid_well_known_errors_only cs :
  errors_only (find_invalid_well_known cs).
Proof.
  unfold find_invalid_well_known, open_and_load_json.
  frame; apply check_list_sites_errors_only.
Qed.

Lemma find_invalid_removal_errors_only cs : errors_only (find_invalid_removal cs).
Proof. unfold find_invalid_removal. frame. Qed.

Lemma find_invalid_alias_eSLDs_errors_only cs :
  errors_only (find_invalid_alias_eSLDs cs).
Proof. unfold find_invalid_alias_eSLDs. frame. Qed.

Lemma find_robots_tag_errors_only cs : errors_only (find_robots_tag cs).
Proof. unfold find_robots_tag, find_robots_tag_site. frame. Qed.

Lemma find_ads_txt_errors_only cs : errors_only (find_ads_txt cs).
Proof. unfold find_ads_txt, find_ads_txt_site. frame. Qed.

Lemma check_for_service_redirect_errors_only cs :
  errors_only (check_for_service_redirect cs).
Proof. unfold check_for_service_redirect. frame. Qed.

End Checks_frame.

(** ** [check_associated_count] *)

Section Associated_count.
Context `{Runtime}.

Lemma set_warning_texts_nil c : set_warning_texts (warning_texts c ++ []) c = c.
Proof. destruct c. unfold set_warning_texts. simpl. by rewrite app_nil_r. Qed.

Lemma check_associated_count_exec cs s :
  exec (check_associated_count cs) s
  = State (set_warning_texts (warning_texts (self s) ++ associated_warnings cs)
             (self s))
          (net s).
Proof.
  unfold check_associated_count, associated_warnings.
  revert s. induction cs as [|[p rws] cs IH]; intros s.
  - simpl. rewrite set_warning_texts_nil. by destruct s.
  - cbn [for_each]. rewrite exec_bind, IH.
    case_bool_decide as Hlen.
    + rewrite (filter_cons_True _ (p, rws)) by done. unfold exec. simpl.
      by rewrite <-app_assoc.
    + rewrite (filter_cons_False _ (p, rws)) by done. unfold exec. simpl. by destruct s.
Qed.

End Associated_count.

(** ** Accumulation of diagnostics *)

Section Accumulation.
Context `{Runtime}.

Lemma run_check_errors_only c :
  (∀ cs, c ≠ CheckAssociatedCount cs) → errors_only (run_check c).
Proof.
  intros Hc. destruct c; simpl.
  - apply errors_only_bind; [apply load_sets_errors_only|intros; apply errors_only_ret].
  - apply has_all_rationales_errors_only.
  - apply check_exclusivity_errors_only.
  - by destruct (Hc check_sets).
  - apply find_non_https_urls_errors_only.
  - apply find_invalid_eTLD_Plus1_errors_only.
  - apply check_list_sites_errors_only.
  - apply find_invalid_well_known_errors_only.
  - apply find_invalid_removal_errors_only.
  - apply find_invalid_alias_eSLDs_errors_only.
  - apply find_robots_tag_errors_only.
  - apply find_ads_txt_errors_only.
  - apply check_for_service_redirect_errors_only.
Qed.

Lemma run_check_warnings c s :
  warnings_of (exec (run_check c) s) = warnings_of s ++ warnings_due c.
Proof.
  destruct c;
    try (simpl warnings_due; rewrite app_nil_r;
         by apply errors_only_prefix, run_check_errors_only).
  simpl. by rewrite check_associated_count_exec.
Qed.

Lemma run_check_errors_prefix c s :
  errors_of s `prefix_of` errors_of (exec (run_check c) s).
Proof.
  destruct c;
    try (by apply errors_only_prefix, run_check_errors_only).
  simpl. by rewrite check_associated_count_exec.
Qed.

Lemma run_checks_warnings checks s :
  warnings_of (exec (run_checks checks) s)
  = warnings_of s ++ concat (warnings_due <$> checks).
Proof.
  unfold run_checks. revert s.
  induction checks as [|c checks IH]; intros s; simpl.
  - by rewrite app_nil_r.
  - rewrite exec_bind, IH, run_check_warnings. by rewrite app_assoc.
Qed.

Lemma run_checks_errors_prefix checks s :
  errors_of s `prefix_of` errors_of (exec (run_checks checks) s).
Proof.
  unfold run_checks. revert s.
  induction checks as [|c checks IH]; intros s; simpl; [done|].
  rewrite exec_bind. etrans; [apply (run_check_errors_prefix c)|apply IH].
Qed.

Lemma exec_for_each_app {A} (xs ys : list A) (body : A → M unit) s :
  exec (for_each (xs ++ ys) body) s
  = exec (for_each ys body) (exec (for_each xs body) s).
Proof. unfold exec at 1. by rewrite for_each_app, run_bind. Qed.

(** A check that first reads the object and then loops. *)
Lemma exec_get_self_for_each_app {A} (body : RwsCheck → A → M unit) xs ys s :
  (∀ me x, errors_only (body me x)) →
  (∀ me l, body (set_error_list l me) = body me) →
  exec (me ← get_self; for_each (xs ++ ys) (body me)) s
  = exec (me ← get_self; for_each ys (body me))
      (exec (me ← get_self; for_each xs (body me)) s).
Proof.
  intros Hframe Hbody. rewrite !exec_bind. cbn [get_self fst exec snd].
  rewrite exec_for_each_app. f_equal.
  destruct (errors_only_for_each xs (body (self s)) (Hframe (self s)) s)
    as [msgs Hs].
  by rewrite Hs, Hbody.
Qed.

End Accumulation.

(** C10.  [check_associated_count] appends to [warning_texts] one warning
    for each Set with more than five associated sites, in map order, and
    leaves [error_list] as it was; every other check leaves [warning_texts]
    as it was.  Hence after any run the warnings are those present before
    followed by the warnings due for each [check_associated_count] of the
    run. *)
Theorem warnings_only_from_associated_count `{Runtime} :
  (∀ c s,
     match c with
     | CheckAssociatedCount check_sets =>
         warnings_of (exec (run_check c) s)
         = warnings_of s ++ associated_warnings check_sets
         ∧ errors_of (exec (run_check c) s) = errors_of s
     | _ => warnings_of (exec (run_check c) s) = warnings_of s
     end) ∧
  (∀ checks s,
     warnings_of (exec (run_checks checks) s)
     = warnings_of s ++ concat (warnings_due <$> checks)).
Proof.
  split; [|apply run_checks_warnings].
  intros c s.
  destruct c;
    try (by apply errors_only_prefix, run_check_errors_only).
  simpl. by rewrite check_associated_count_exec.
Qed.

(** ** Computations that only log *)

Section Yields.
Context `{Runtime}.

Lemma log_nil s : log [] s = s.
Proof. unfold log. rewrite set_error_list_nil. by destruct s. Qed.

Lemma log_log l1 l2 s : log l2 (log l1 s) = log (l1 ++ l2) s.
Proof. unfold log, set_error_list. simpl. by rewrite app_assoc. Qed.

Lemma errors_of_log l s : errors_of (log l s) = errors_of s ++ l.
Proof. reflexivity. Qed.

Lemma yields_ret {A} (v : A) : yields (mret v) v [].
Proof. intros s. by rewrite log_nil. Qed.

Lemma yields_bind {A B} (m : M A) (k : A → M B) v l1 w l2 :
  yields m v l1 → yields (k v) w l2 → yields (m ≫= k) w (l1 ++ l2).
Proof.
  intros Hm Hk s. rewrite run_bind, Hm. cbn [fst snd]. by rewrite Hk, log_log.
Qed.

Lemma yields_extend msgs : yields (extend_errors msgs) () msgs.
Proof. by intros s. Qed.

Lemma yields_append msg : yields (append_error msg) () [msg].
Proof. by intros s. Qed.

Lemma yields_when b (m : M unit) l :
  yields m () l → yields (when b m) () (if b then l else []).
Proof. destruct b; [done | intros _; apply yields_ret]. Qed.

Lemma yields_for_each {A} (xs : list A) (body : A → M unit) (f : A → list string) :
  (∀ x, x ∈ xs → yields (body x) () (f x)) →
  yields (for_each xs body) () (concat (f <$> xs)).
Proof.
  induction xs as [|x xs IH]; intros Hbody; simpl.
  - apply yields_ret.
  - apply (yields_bind _ _ ()); [apply Hbody; left | apply IH].
    intros y Hy. apply Hbody. by right.
Qed.

Lemma yields_for_each_map {A B} (g : A → B) (xs : list A) (body : B → M unit)
    (f : A → list string) :
  (∀ x, x ∈ xs → yields (body (g x)) () (f x)) →
  yields (for_each (map g xs) body) () (concat (f <$> xs)).
Proof.
  induction xs as [|x xs IH]; intros Hbody; simpl.
  - apply yields_ret.
  - apply (yields_bind _ _ ()); [apply Hbody; left | apply IH].
    intros y Hy. apply Hbody. by right.
Qed.

Lemma yields_exec {A} (m : M A) v l s :
  yields m v l → errors_of (exec m s) = errors_of s ++ l.
Proof. intros Hm. unfold exec. by rewrite Hm. Qed.

End Yields.

(** ** [find_invalid_alias_eSLDs] *)

Section Alias_eSLDs.
Context `{Runtime}.

Lemma includes_member_of curr_set site :
  includes curr_set site false = true ↔ member_of curr_set site.
Proof.
  unfold includes, member_of. simpl.
  rewrite !orb_true_iff, !bool_decide_eq_true. tauto.
Qed.

Lemma find_invalid_alias_eSLDs_run cs s :
  find_invalid_alias_eSLDs cs s = ((), log (alias_errors (self s) cs) s).
Proof.
  unfold find_invalid_alias_eSLDs. rewrite run_bind. cbn [get_self fst snd].
  generalize (self s) as me. intros me. revert s.
  apply (yields_for_each cs _
           (λ item, concat (entry_errors me item.1 item.2 <$> ccTLDs item.2))).
  intros [p curr_set] _.
  apply (yields_for_each _ _ (entry_errors me p curr_set)).
  intros [aliased_site aliases] _. unfold entry_errors. cbn [fst snd].
  apply (yields_bind _ _ ()); [apply (yields_when _ _ [_]), yields_append|].
  apply (yields_for_each_map _ _ _ (variant_errors me aliased_site)).
  intros site _. unfold variant_errors.
  apply (yields_bind _ _ ()); apply (yields_when _ _ [_]), yields_append.
Qed.

Lemma elem_of_variant_errors me aliased_site site e :
  e ∈ variant_errors me aliased_site site ↔
  (e = eSLD_error aliased_site site
   ∧ first_segment site ≠ first_segment aliased_site)
  ∨ (e = country_code_error site
     ∧ last_segment site
         ∉ (if decide (last_segment aliased_site ∈ icanns me)
            then icanns me ∪ {["com"]} else icanns me)).
Proof.
  unfold variant_errors, icann_check. rewrite elem_of_app.
  assert (∀ (P : Prop) `{Decision P} (x : string),
            e ∈ (if bool_decide P then [x] else []) ↔ e = x ∧ P) as Hif.
  { intros P ? x. case_bool_decide.
    - rewrite list_elem_of_singleton. tauto.
    - rewrite elem_of_nil. tauto. }
  rewrite !Hif. case_bool_decide; by case_decide.
Qed.

Lemma elem_of_entry_errors me p curr_set aliased_site aliases e :
  e ∈ entry_errors me p curr_set (aliased_site, aliases)
  ↔ alias_finding me p curr_set aliased_site aliases e.
Proof.
  unfold entry_errors, alias_finding. cbn [fst snd].
  rewrite elem_of_app, elem_of_concat.
  assert (e ∈ (if negb (includes curr_set aliased_site false)
               then [not_member_error p aliased_site] else [])
          ↔ e = not_member_error p aliased_site
            ∧ ¬ member_of curr_set aliased_site) as ->.
  { rewrite <-includes_member_of.
    destruct (includes curr_set aliased_site false); cbn.
    - rewrite elem_of_nil. naive_solver.
    - rewrite list_elem_of_singleton. naive_solver. }
  assert (∀ P Q R : Prop, (Q ↔ R) → (P ∨ Q ↔ P ∨ R)) as Hor by tauto.
  apply Hor. split.
  - intros (l & He & Hl). apply list_elem_of_fmap in Hl as (site & -> & Hsite).
    exists site. split; [done|]. by apply elem_of_variant_errors.
  - intros (site & Hsite & He). exists (variant_errors me aliased_site site).
    split; [by apply elem_of_variant_errors|].
    apply list_elem_of_fmap. by exists site.
Qed.

End Alias_eSLDs.

(** C7.  The errors [find_invalid_alias_eSLDs] appends are exactly the
    findings about the ccTLD entries [(aliased_site, aliases)] of the Sets:
    that [aliased_site] is not the primary, an associated site or a service
    site of its Set; that the first ['.']-segment of an alias differs from
    that of [aliased_site]; that the last ['.']-segment of an alias is
    outside the acceptable set, which is the country codes together with
    ["com"] when the last segment of [aliased_site] is a country code, and
    the country codes alone otherwise. *)
Theorem find_invalid_alias_eSLDs_findings `{Runtime} (cs : dict RwsSet) (s : state) :
  ∃ appended,
    errors_of (exec (find_invalid_alias_eSLDs cs) s) = errors_of s ++ appended ∧
    ∀ e, e ∈ appended ↔
      ∃ p curr_set aliased_site aliases,
        (p, curr_set) ∈ cs ∧ (aliased_site, aliases) ∈ ccTLDs curr_set ∧
        alias_finding (self s) p curr_set aliased_site aliases e.
Proof.
  exists (alias_errors (self s) cs). split.
  - unfold exec. by rewrite find_invalid_alias_eSLDs_run.
  - intros e. unfold alias_errors. rewrite elem_of_concat. split.
    + intros (l & He & Hl).
      apply list_elem_of_fmap in Hl as ([p curr_set] & -> & Hitem).
      cbn [fst snd] in He. apply elem_of_concat in He as (l & He & Hl).
      apply list_elem_of_fmap in Hl as ([aliased_site aliases] & -> & Hentry).
      exists p, curr_set, aliased_site, aliases. split_and!; [done..|].
      by apply elem_of_entry_errors.
    + intros (p & curr_set & aliased_site & aliases & Hitem & Hentry & He).
      exists (concat (entry_errors (self s) p curr_set <$> ccTLDs curr_set)).
      split.
      * apply elem_of_concat.
        exists (entry_errors (self s) p curr_set (aliased_site, aliases)).
        split; [by apply elem_of_entry_errors|].
        apply list_elem_of_fmap. by exists (aliased_site, aliases).
      * apply list_elem_of_fmap. by exists (p, curr_set).
Qed.

(** The alias [https://example.com] is accepted for [https://example.de],
    whose last segment is a country code, and rejected for
    [https://example.org], whose last segment is not. *)
Example find_invalid_alias_eSLDs_com_exemption :
  errors_of (exec (find_invalid_alias_eSLDs aliased_de) de_check) = []
  ∧ errors_of (exec (find_invalid_alias_eSLDs aliased_org) de_check)
    = ["The provided country code: com, in: https://example.com is not a ICANN registered country code"].
Proof. split; vm_compute; reflexivity. Qed.

(** ** [has_all_rationales] *)

Section Rationales.
Context `{Runtime}.

Lemma has_all_rationales_body_yields cs rwset :
  yields (has_all_rationales_body cs rwset) ()
    (if bool_decide (rec_primary rwset ∉ keys cs) then []
     else rationale_errors rwset).
Proof.
  unfold has_all_rationales_body, rationale_errors. fold (record_sites rwset).
  case_bool_decide as Hkey; [apply yields_ret|].
  destruct (rec_rationaleBySite rwset) as [r|]; cbn [andb].
  - rewrite bool_decide_eq_false_2 by done.
    rewrite <-(app_nil_r (_ <$> _)).
    apply (yields_bind _ _ ()); [|apply yields_ret].
    assert (yields
              (for_each (record_sites rwset) (λ site,
                 when (bool_decide (site ∉ dom r))
                   (append_error ("There is no provided rationale for " +:+ site))))
              () (no_rationale_error <$> filter (λ site, site ∉ dom r)
                                           (record_sites rwset))) as Hloop.
    { induction (record_sites rwset) as [|site sites IH]; [apply yields_ret|].
      cbn [for_each]. rewrite filter_cons. case_bool_decide as Hsite.
      - rewrite decide_True by done.
        apply (yields_bind _ _ () [_]); [apply yields_append | apply IH].
      - rewrite decide_False by tauto.
        apply (yields_bind _ _ () []); [apply yields_ret | apply IH]. }
    case_bool_decide as Hsites; [done|].
    rewrite Hsites. apply yields_ret.
  - rewrite bool_decide_eq_true_2 by done.
    apply (yields_bind _ _ () []); [apply yields_ret | apply yields_append].
Qed.

Lemma has_all_rationales_run cs s :
  has_all_rationales cs s
  = ((), log (concat ((λ rwset,
                         if bool_decide (rec_primary rwset ∉ keys cs) then []
                         else rationale_errors rwset) <$> rws_sites (self s))) s).
Proof.
  unfold has_all_rationales. rewrite run_bind. cbn [get_self fst snd].
  apply yields_for_each. intros rwset _. apply has_all_rationales_body_yields.
Qed.

End Rationales.

(** C2, at a record with a primary and a ccTLD alias only: its combined
    list of associated and service sites is empty, and [has_all_rationales]
    still reports that a [rationaleBySite] field is required. *)
Lemma has_all_rationales_without_sites :
  record_sites <$> aliases_only_submission = [[]] ∧
  errors_of (exec load_then_rationales (example_check aliases_only_submission))
  = [rationale_required_error].
Proof. split; vm_compute; reflexivity. Qed.

(** C3, as stated, fails on [duplicate_submission]: the second record is a
    later duplicate of the primary [https://a.example], yet the error about
    [https://late.example], a site of that record alone, is reported by
    [has_all_rationales]. *)
Lemma has_all_rationales_reads_later_duplicate :
  rec_primary <$> duplicate_submission = ["https://a.example"; "https://a.example"] ∧
  record_sites <$> first_records duplicate_submission = [["https://a-assoc.example"]] ∧
  errors_of (exec load_then_rationales (example_check duplicate_submission))
  = [ already_primary "https://a.example";
      no_rationale_error "https://late.example" ] ∧
  errors_of
    (exec load_then_rationales (example_check (first_records duplicate_submission)))
  = [].
Proof. split_and!; vm_compute; reflexivity. Qed.

(** ** Checks that read the submission through the map only *)

Section Blind.
Context `{Runtime}.

Lemma sites_blind_ret {A} (x : A) : sites_blind (mret x).
Proof. by intros sites s. Qed.

Lemma sites_blind_bind {A B} (m : M A) (k : A → M B) :
  sites_blind m → (∀ a, sites_blind (k a)) → sites_blind (m ≫= k).
Proof.
  intros Hm Hk sites s. rewrite !run_bind, Hm. cbn [fst snd]. by rewrite Hk.
Qed.

(** Reading the object is harmless when the rest of the computation does not
    look at the records it holds. *)
Lemma sites_blind_get_self {B} (k : RwsCheck → M B) :
  (∀ sites me, k (set_rws_sites sites me) = k me) →
  (∀ me, sites_blind (k me)) → sites_blind (get_self ≫= k).
Proof.
  intros Hk Hblind sites s. rewrite !run_bind. cbn [get_self fst snd with_sites self].
  rewrite Hk. apply Hblind.
Qed.

Lemma sites_blind_request {A} (f : World → A * World) : sites_blind (request f).
Proof. intros sites s. unfold request, with_sites. simpl. by destruct (f (net s)). Qed.

Lemma sites_blind_extend msgs : sites_blind (extend_errors msgs).
Proof. by intros sites s. Qed.

Lemma sites_blind_append msg : sites_blind (append_error msg).
Proof. by intros sites s. Qed.

Lemma sites_blind_warning msg : sites_blind (append_warning msg).
Proof. by intros sites s. Qed.

Lemma sites_blind_when b (m : M unit) : sites_blind m → sites_blind (when b m).
Proof. destruct b; [done | intros _; apply sites_blind_ret]. Qed.

Lemma sites_blind_for_each {A} (xs : list A) (body : A → M unit) :
  (∀ x, sites_blind (body x)) → sites_blind (for_each xs body).
Proof.
  intros Hbody. induction xs as [|x xs IH]; simpl.
  - apply sites_blind_ret.
  - apply sites_blind_bind; [apply Hbody | by intros _].
Qed.

Lemma sites_blind_for_fold {A S} (xs : list A) (acc : S) (body : S → A → M S) :
  (∀ acc x, sites_blind (body acc x)) → sites_blind (for_fold xs acc body).
Proof.
  intros Hbody. revert acc. induction xs as [|x xs IH]; intros acc; simpl.
  - apply sites_blind_ret.
  - apply sites_blind_bind; [apply Hbody | done].
Qed.

Lemma sites_blind_exec {A} (m : M A) sites s :
  sites_blind m → exec m (with_sites sites s) = with_sites sites (exec m s).
Proof. intros Hm. unfold exec. by rewrite Hm. Qed.

End Blind.

Ltac blind_step :=
  first
    [ apply sites_blind_ret
    | apply sites_blind_request
    | apply sites_blind_extend
    | apply sites_blind_append
    | apply sites_blind_warning
    | apply sites_blind_when
    | apply sites_blind_get_self; [reflexivity | intros ?]
    | apply sites_blind_bind; [| intros ?]
    | apply sites_blind_for_each; intros ?
    | apply sites_blind_for_fold; intros ? ?
    | match goal with
      | |- sites_blind (match ?x with _ => _ end) => destruct x
      | |- sites_blind (if ?b then _ else _) => destruct b
      end ].

Ltac blind := repeat blind_step.

Section Checks_blind.
Context `{Runtime}.

Lemma check_list_sites_blind p l : sites_blind (check_list_sites p l).
Proof. unfold check_list_sites, open_and_load_json. blind. Qed.

Lemma run_check_blind c :
  match c with
  | LoadSets | HasAllRationales _ => True
  | _ => sites_blind (run_check c)
  end.
Proof.
  destruct c; try done; cbn [run_check].
  - unfold check_exclusivity, check_exclusivity_loop, check_exclusivity_body,
      exclusivity_step. blind.
  - unfold check_associated_count. blind.
  - unfold find_non_https_urls. blind.
  - unfold find_invalid_eTLD_Plus1. blind.
  - apply check_list_sites_blind.
  - unfold find_invalid_well_known, open_and_load_json.
    blind; apply check_list_sites_blind.
  - unfold find_invalid_removal. blind.
  - unfold find_invalid_alias_eSLDs. blind.
  - unfold find_robots_tag, find_robots_tag_site. blind.
  - unfold find_ads_txt, find_ads_txt_site. blind.
  - unfold check_for_service_redirect. blind.
Qed.

End Checks_blind.

(** ** Duplicate primaries *)

Lemma load_sets_loop_first_records sets : ∀ cs errs,
  (foldl load_sets_step (cs, errs) sets).1
  = cs ++ ((λ r, (rec_primary r, set_of_record r))
           <$> first_records_from (keys cs) sets).
Proof.
  induction sets as [|r sets IH]; intros cs errs.
  - simpl. by rewrite app_nil_r.
  - cbn [foldl first_records_from]. rewrite load_sets_step_eq.
    case_bool_decide as Hin.
    + rewrite decide_True by done. apply IH.
    + rewrite decide_False by done. rewrite IH, keys_app, fmap_cons.
      by rewrite <-app_assoc.
Qed.

Lemma first_record_is_Some r sets :
  r ∈ sets → is_Some (first_record (rec_primary r) sets).
Proof.
  intros Hr. unfold first_record.
  destruct (List.find _ sets) as [r'|] eqn:Hfind; [by eexists|].
  apply list_elem_of_In in Hr.
  pose proof (find_none _ _ Hfind r Hr) as Hnone. simpl in Hnone.
  by rewrite bool_decide_eq_true_2 in Hnone.
Qed.

Lemma loaded_keys_cover sets r :
  r ∈ sets → rec_primary r ∈ keys (load_sets_loop sets).1.
Proof.
  intros Hr.
  destruct (load_sets_loop_spec sets [] [] (NoDup_nil_2)) as (_ & Hget & _).
  destruct (decide (rec_primary r ∈ keys (load_sets_loop sets).1)) as [|Hnot];
    [done|].
  apply dict_get_None in Hnot. unfold load_sets_loop in Hnot.
  rewrite Hget in Hnot. simpl in Hnot.
  destruct (first_record_is_Some r sets Hr) as [r' Hr']. by rewrite Hr' in Hnot.
Qed.

(** C3, amended.  The map [load_sets] returns is that of the first record of
    each primary, in document order, so that later duplicates are absent from
    it; every check other than [load_sets] and [has_all_rationales] reads the
    submission through the map it is given only, and is not affected by the
    records themselves; [has_all_rationales], given the loaded map, skips no
    record and reports on every record of the document, later duplicates
    included. *)
Theorem later_duplicates_dropped_from_map `{Runtime} :
  (∀ s, (load_sets s).1
        = (λ r, (rec_primary r, set_of_record r))
          <$> first_records (rws_sites (self s))) ∧
  (∀ c sites s,
     match c with
     | LoadSets | HasAllRationales _ => True
     | _ => exec (run_check c) (with_sites sites s)
            = with_sites sites (exec (run_check c) s)
     end) ∧
  (∀ s, errors_of (exec (has_all_rationales (load_sets s).1) s)
        = errors_of s ++ concat (rationale_errors <$> rws_sites (self s))).
Proof.
  split_and!.
  - intros s. rewrite load_sets_run. cbn [fst]. unfold load_sets_loop.
    by rewrite load_sets_loop_first_records.
  - intros c sites s. pose proof (run_check_blind c) as Hc.
    destruct c; try done; by apply sites_blind_exec.
  - intros s. unfold exec. rewrite has_all_rationales_run. cbn [snd].
    rewrite errors_of_log. do 2 f_equal.
    apply Forall_fmap_ext_1, Forall_forall. intros r Hr.
    rewrite load_sets_run. cbn [fst].
    rewrite bool_decide_eq_false_2; [done|].
    intros Hnot. apply Hnot. by apply loaded_keys_cover.
Qed.

(** ** [find_ads_txt] *)

Section Ads_txt.
Context `{Runtime}.

Lemma for_each_concat {A B} (f : A → list B) (xs : list A) (body : B → M unit) s :
  for_each xs (λ x, for_each (f x) body) s
  = for_each (concat (f <$> xs)) body s.
Proof.
  revert s. induction xs as [|x xs IH]; intros s; [done|].
  cbn [for_each fmap list_fmap concat].
  rewrite for_each_app, !run_bind. apply IH.
Qed.

Lemma find_ads_txt_flat cs s :
  find_ads_txt cs s = for_each (all_service_sites cs) find_ads_txt_site s.
Proof. unfold find_ads_txt, all_service_sites. apply for_each_concat. Qed.

Lemma find_ads_txt_site_run service_site s :
  find_ads_txt_site service_site s
  = let '(r, w) := requests_get (service_site +:+ "/ads.txt") true (net s) in
    ((), log (ads_txt_verdict service_site r) (State (self s) w)).
Proof.
  unfold find_ads_txt_site. rewrite run_bind. unfold request.
  destruct (requests_get _ true (net s)) as [r w]. cbn [fst snd].
  unfold ads_txt_verdict, ads_txt_flagged, ads_txt_error.
  destruct r as [r|inst].
  - case_bool_decide; [done|]. cbn. by rewrite log_nil.
  - unfold exception_retries_ads, exception_timeout.
    destruct (Str.contains "Max retries exceeded with url: /ads.txt" inst);
      cbn; [by rewrite log_nil|].
    destruct (Str.contains "Read timed out. (read timeout=10)" inst);
      cbn; [by rewrite log_nil | done].
Qed.

(** A loop whose body makes one request per site and logs a verdict on its
    outcome: every site is requested, in order, and the verdicts are logged
    in order. *)
Lemma for_each_request (address : string → string) (allow_redirects : bool)
    (verdict : string → http_result → list string) (body : string → M unit) :
  (∀ site s,
     body site s
     = let '(r, w) := requests_get (address site) allow_redirects (net s) in
       ((), log (verdict site r) (State (self s) w))) →
  ∀ sites s,
    exec (for_each sites body) s
    = log (concat (zip_with verdict sites
                     (fetch_each address allow_redirects sites (net s)).1))
        (State (self s) (fetch_each address allow_redirects sites (net s)).2).
Proof.
  intros Hbody sites. induction sites as [|site sites IH]; intros s.
  - cbn. rewrite log_nil. by destruct s.
  - cbn [for_each fetch_each]. rewrite exec_bind.
    unfold exec at 2. rewrite Hbody.
    destruct (requests_get _ allow_redirects (net s)) as [r w]. cbn [fst snd].
    rewrite IH. cbn [net self log].
    destruct (fetch_each address allow_redirects sites w) as [rs w'].
    cbn [fst snd zip_with concat].
    unfold log. cbn. by rewrite <-app_assoc.
Qed.

Lemma fetch_each_length address allow_redirects sites : ∀ w,
  length (fetch_each address allow_redirects sites w).1 = length sites.
Proof.
  induction sites as [|site sites IH]; intros w; [done|].
  cbn [fetch_each]. destruct (requests_get _ allow_redirects w) as [r w1].
  specialize (IH w1). destruct (fetch_each address allow_redirects sites w1).
  simpl in *. by rewrite IH.
Qed.

Lemma find_robots_tag_site_run service_site s :
  find_robots_tag_site service_site s
  = let '(r, w) := requests_get service_site false (net s) in
    ((), log (robots_verdict service_site r) (State (self s) w)).
Proof.
  unfold find_robots_tag_site. rewrite run_bind. unfold request.
  destruct (requests_get _ false (net s)) as [r w]. cbn [fst snd].
  unfold robots_verdict. destruct r as [r|inst]; [|done].
  destruct (x_robots_tag r) as [robots_tag|]; [|done].
  destruct (Str.contains ":" robots_tag); [done|].
  destruct (Str.contains "none" robots_tag); cbn; [by rewrite log_nil|].
  destruct (Str.contains "noindex" robots_tag); cbn; [by rewrite log_nil|done].
Qed.

Lemma find_robots_tag_exec cs s :
  exec (find_robots_tag cs) s
  = log (concat (zip_with robots_verdict (all_service_sites cs)
                   (fetch_headers (all_service_sites cs) (net s)).1))
      (State (self s) (fetch_headers (all_service_sites cs) (net s)).2).
Proof.
  unfold exec, find_robots_tag, all_service_sites. rewrite for_each_concat.
  apply (for_each_request (λ site, site) false robots_verdict).
  apply find_robots_tag_site_run.
Qed.

Lemma robots_verdict_length service_site r :
  (length (robots_verdict service_site r) ≤ 1)%nat.
Proof.
  unfold robots_verdict. repeat case_match; simpl; lia.
Qed.

End Ads_txt.

(** C8.  [find_ads_txt] requests [<site>/ads.txt] once for every service
    site, in order, whatever the earlier requests returned or raised; the
    errors it appends are, site by site, one diagnostic when the outcome is
    status 200 or an exception whose text shows neither benign pattern, and
    none otherwise. *)
Theorem find_ads_txt_diagnostics `{Runtime} (cs : dict RwsSet) (s : state) :
  let sites := all_service_sites cs in
  let outcomes := (fetch_ads_txt sites (net s)).1 in
  length outcomes = length sites ∧
  net (exec (find_ads_txt cs) s) = (fetch_ads_txt sites (net s)).2 ∧
  errors_of (exec (find_ads_txt cs) s)
  = errors_of s
    ++ concat (zip_with (λ site r,
                 if ads_txt_flagged r then [ads_txt_error site r] else [])
               sites outcomes).
Proof.
  intros sites outcomes. subst sites outcomes.
  split; [apply fetch_each_length|].
  unfold exec. rewrite find_ads_txt_flat.
  pose proof (for_each_request (λ site, site +:+ "/ads.txt") true ads_txt_verdict
                find_ads_txt_site find_ads_txt_site_run (all_service_sites cs) s)
    as Hrun.
  unfold exec in Hrun. rewrite Hrun. done.
Qed.

(** The service sites of [service_collection] on the example network: the
    site that serves an [ads.txt] and the one whose connection is reset are
    reported; the timeout, the refused connection and the 404 are not. *)
Example find_ads_txt_service_collection :
  errors_of (exec (find_ads_txt service_collection) (example_check []))
  = [ ads_txt_policy_error "https://svc-ads.example";
      ads_txt_unexpected_error "https://svc-reset.example"
        "('Connection aborted.', ConnectionResetError(104, 'Connection reset by peer'))" ]
  ∧ net (exec (find_ads_txt service_collection) (example_check [])) = 5%nat.
Proof. split; vm_compute; reflexivity. Qed.

(** ** [is_eTLD_Plus1] *)

Lemma prefix_append p rest : String.prefix p (p +:+ rest) = true.
Proof.
  induction p as [|c p IH]; simpl; [by destruct rest|].
  destruct (ascii_dec c c); [done|congruence].
Qed.

Lemma drop_append p rest : Str.drop (String.length p) (p +:+ rest) = rest.
Proof. induction p as [|c p IH]; simpl; [done|apply IH]. Qed.

Lemma removeprefix_append p rest : Str.removeprefix (p +:+ rest) p = rest.
Proof.
  unfold Str.removeprefix, Str.startswith. by rewrite prefix_append, drop_append.
Qed.

Lemma removeprefix_absent s p :
  Str.startswith s p = false → Str.removeprefix s p = s.
Proof. unfold Str.removeprefix. by intros ->. Qed.

(** C5.  [is_eTLD_Plus1] removes a leading ["https://"], when there is one,
    and holds exactly when the oracle, strictly matched, gives the stripped
    site as its own registrable domain and does not give it as its own bare
    suffix.  With an oracle that recognizes [com] it rejects ["com"] and
    accepts ["example.com"], with or without the scheme. *)
Theorem is_eTLD_Plus1_spec (me : RwsCheck) (site : string) :
  let stripped := Str.removeprefix site "https://" in
  (∀ rest, site = "https://" +:+ rest → stripped = rest) ∧
  (url_is_https site = false → stripped = site) ∧
  (is_eTLD_Plus1 me site = true ↔
     get_sld (etlds me) stripped = Some stripped
     ∧ get_tld (etlds me) stripped ≠ Some stripped) ∧
  (recognizes_com (etlds me) →
     is_eTLD_Plus1 me "com" = false
     ∧ is_eTLD_Plus1 me "example.com" = true
     ∧ is_eTLD_Plus1 me "https://com" = false
     ∧ is_eTLD_Plus1 me "https://example.com" = true).
Proof.
  intros stripped. subst stripped. split_and!.
  - intros rest ->. apply removeprefix_append.
  - apply removeprefix_absent.
  - unfold is_eTLD_Plus1.
    rewrite andb_true_iff, negb_true_iff, bool_decide_eq_true, bool_decide_eq_false.
    done.
  - intros (Hcom & Htld & Hsld). unfold is_eTLD_Plus1.
    change (Str.removeprefix "com" "https://") with "com".
    change (Str.removeprefix "example.com" "https://") with "example.com".
    change (Str.removeprefix "https://com" "https://") with "com".
    change (Str.removeprefix "https://example.com" "https://") with "example.com".
    rewrite Hcom, Htld, Hsld.
    rewrite (bool_decide_eq_true_2 (Some "com" = Some "com")) by done.
    rewrite andb_false_r. split_and!; by vm_compute.
Qed.

Lemma is_eTLD_Plus1_spec_witness :
  recognizes_com (etlds com_check)
  ∧ is_eTLD_Plus1 com_check "com" = false
  ∧ is_eTLD_Plus1 com_check "example.com" = true
  ∧ is_eTLD_Plus1 com_check "https://com" = false
  ∧ is_eTLD_Plus1 com_check "https://example.com" = true.
Proof.
  assert (recognizes_com (etlds com_check)) as Hcom
    by (repeat split; vm_compute; reflexivity).
  split; [exact Hcom|].
  exact (proj2 (proj2 (proj2 (is_eTLD_Plus1_spec com_check "example.com"))) Hcom).
Defined.

(** ** [check_well_known_list] *)

Lemma contains_prefix x hay : String.prefix x hay = true → Str.contains x hay = true.
Proof. intros Hpre. destruct hay; cbn [Str.contains]; by rewrite Hpre. Qed.

Lemma contains_here x rest : Str.contains x (x +:+ rest) = true.
Proof. apply contains_prefix, prefix_append. Qed.

Lemma contains_skip x a rest :
  Str.contains x rest = true → Str.contains x (a +:+ rest) = true.
Proof.
  intros Hrest. induction a as [|c a IH]; [done|].
  change (String c a +:+ rest) with (String c (a +:+ rest)).
  cbn [Str.contains]. rewrite IH. apply orb_true_r.
Qed.

#[global] Instance str_le_total : Total str_le.
Proof. intros s1 s2. apply String.leb_total. Qed.

Lemma sorted_Sorted (X : gset string) : Sorted str_le (sorted X).
Proof. apply (Sorted_merge_sort str_le). Qed.

Lemma sorted_NoDup (X : gset string) : NoDup (sorted X).
Proof.
  unfold sorted. rewrite merge_sort_Permutation. apply NoDup_elements.
Qed.

Lemma elem_of_sorted (X : gset string) x : x ∈ sorted X ↔ x ∈ X.
Proof. unfold sorted. by rewrite merge_sort_Permutation, elem_of_elements. Qed.

Lemma elem_of_symmetric_difference l1 l2 x :
  x ∈ symmetric_difference l1 l2 ↔ (x ∈ l1 ∧ x ∉ l2) ∨ (x ∈ l2 ∧ x ∉ l1).
Proof. unfold symmetric_difference. set_solver. Qed.

Lemma symmetric_difference_same_elements l1 l2 :
  (∀ x, x ∈ l1 ↔ x ∈ l2) → sorted (symmetric_difference l1 l2) = [].
Proof.
  intros Hsame.
  assert (symmetric_difference l1 l2 = ∅) as ->.
  { apply set_eq. intros x. rewrite elem_of_symmetric_difference, Hsame.
    set_solver. }
  unfold sorted. by rewrite elements_empty.
Qed.

(** C6.  [check_well_known_list] returns no diagnostic for two equal lists
    and exactly one for two lists that differ, which contains the field name,
    the text of both lists and the text of [diff], the sorted symmetric
    difference of the two lists: [diff] is ordered, without repetition, holds
    the sites that occur in one list and not in the other, and is empty when
    the lists are permutations of each other. *)
Theorem check_well_known_list_spec `{Runtime} (field : string) (l1 l2 : list string) :
  let diff := sorted (symmetric_difference l1 l2) in
  (if decide (l1 = l2) then check_well_known_list field l1 l2 = []
   else ∃ d, check_well_known_list field l1 l2 = [d]
             ∧ Str.contains field d = true
             ∧ Str.contains (repr_list l1) d = true
             ∧ Str.contains (repr_list l2) d = true
             ∧ Str.contains (repr_list diff) d = true) ∧
  Sorted str_le diff ∧
  NoDup diff ∧
  (∀ x, x ∈ diff ↔ (x ∈ l1 ∧ x ∉ l2) ∨ (x ∈ l2 ∧ x ∉ l1)) ∧
  (l1 ≡ₚ l2 → diff = []).
Proof.
  intros diff. subst diff. split_and!.
  - unfold check_well_known_list. case_decide as Heq.
    + by rewrite bool_decide_eq_true_2.
    + rewrite bool_decide_eq_false_2 by done. eexists. split; [done|].
      split_and!.
      * do 5 apply contains_skip. apply contains_here.
      * do 7 apply contains_skip. apply contains_here.
      * do 9 apply contains_skip. apply contains_here.
      * do 14 apply contains_skip. apply contains_here.
  - apply sorted_Sorted.
  - apply sorted_NoDup.
  - intros x. by rewrite elem_of_sorted, elem_of_symmetric_difference.
  - intros Hperm. apply symmetric_difference_same_elements.
    intros x. by rewrite Hperm.
Qed.

Lemma check_well_known_list_spec_witness :
  listed_in_pr ≡ₚ listed_permuted
  ∧ sorted (symmetric_difference listed_in_pr listed_permuted) = [].
Proof.
  assert (listed_in_pr ≡ₚ listed_permuted) as Hperm by apply Permutation_swap.
  split; [exact Hperm|].
  exact (proj2 (proj2 (proj2 (proj2
           (@check_well_known_list_spec example_runtime "associatedSites"
              listed_in_pr listed_permuted)))) Hperm).
Defined.

(** A permuted pair and a pair that differs in content, on the example
    runtime: one diagnostic each, with the sorted difference at its end. *)
Example check_well_known_list_examples :
  @check_well_known_list example_runtime "associatedSites" listed_in_pr listed_in_pr
  = []
  ∧ @check_well_known_list example_runtime "associatedSites"
      listed_in_pr listed_permuted
    = [ "Encountered an inequality between the PR submission and the /.well-known/related-website-set.json file:"
        +:+ newline +:+ tab
        +:+ "associatedSites was ['https://b.example', 'https://a.example'] in the PR, and ['https://a.example', 'https://b.example'] in the well-known."
        +:+ newline +:+ tab +:+ "Diff was: []." ]
  ∧ @check_well_known_list example_runtime "associatedSites"
      listed_in_pr listed_elsewhere
    = [ "Encountered an inequality between the PR submission and the /.well-known/related-website-set.json file:"
        +:+ newline +:+ tab
        +:+ "associatedSites was ['https://b.example', 'https://a.example'] in the PR, and ['https://c.example', 'https://a.example'] in the well-known."
        +:+ newline +:+ tab
        +:+ "Diff was: ['https://b.example', 'https://c.example']." ].
Proof. split_and!; vm_compute; reflexivity. Qed.

(** ** [check_exclusivity] *)

(** C1, as stated, fails on [shares_a] and [shares_b]: the total number of
    errors depends on the order of the Sets in the map.
    [shares_a] before [shares_b] gives two errors (the associated and the
    service site of [shares_b] overlap one after the other), [shares_b]
    before [shares_a] gives one (both overlap in the associated sites of
    [shares_a]). *)
Lemma check_exclusivity_count_depends_on_order :
  [shares_a; shares_b] ≡ₚ [shares_b; shares_a]
  ∧ @exclusivity_error_count example_runtime [shares_a; shares_b] O = 2%nat
  ∧ @exclusivity_error_count example_runtime [shares_b; shares_a] O = 1%nat.
Proof. split; [apply Permutation_swap|]. split; vm_compute; reflexivity. Qed.

(** The primary of [claimed_b] is an associated site of [claims_b]: with
    [claims_b] first the primary is found in [site_list]; with [claimed_b]
    first, [site_list] holds the characters of its primary, and the associated
    sites of [claims_b] do not overlap it. *)
Example check_exclusivity_primary_characters :
  errors_of (exec (@check_exclusivity example_runtime [claims_b; claimed_b])
               (example_check []))
  = [primary_overlap_error "https://b.example"]
  ∧ errors_of (exec (@check_exclusivity example_runtime [claimed_b; claims_b])
                 (example_check []))
    = [].
Proof. split; vm_compute; reflexivity. Qed.

(** A character of a string is a byte followed by continuation bytes. *)
Lemma chars_head s :
  match s with
  | EmptyString => Str.chars s = []
  | String a _ => ∃ r chs, Str.chars s = String a r :: chs
  end.
Proof.
  destruct s as [|a rest]; [done|]. cbn [Str.chars].
  destruct (Str.starts_with_continuation rest); [|by eauto].
  destruct (Str.chars rest); by eauto.
Qed.

Lemma chars_shape s c :
  c ∈ Str.chars s →
  ∃ a r, c = String a r ∧ Str.starts_with_continuation r = negb (bool_decide (r = "")).
Proof.
  revert c. induction s as [|a rest IH]; intros c; [by intros ?%elem_of_nil|].
  cbn [Str.chars]. destruct (Str.starts_with_continuation rest) eqn:Hcont.
  - pose proof (chars_head rest) as Hhead. destruct rest as [|a' rest']; [done|].
    destruct Hhead as (r & chs & Hchars). rewrite Hchars.
    intros [->|Hc]%elem_of_cons.
    + exists a, (String a' r). split; [done|]. simpl in *. by rewrite Hcont.
    + apply IH. rewrite Hchars. by right.
  - intros [->|Hc]%elem_of_cons; [by exists a, ""|by apply IH].
Qed.

Lemma prefix_cons_inv a p s :
  String.prefix (String a p) s = true →
  ∃ s', s = String a s' ∧ String.prefix p s' = true.
Proof.
  destruct s as [|b s]; cbn [String.prefix]; [done|].
  destruct (ascii_dec a b) as [->|]; [by eauto|done].
Qed.

Lemma chars_not_https p c : c ∈ Str.chars p → url_is_https c = false.
Proof.
  intros (a & r & -> & Hr)%chars_shape.
  destruct (url_is_https (String a r)) eqn:Hhttps; [|done].
  unfold url_is_https, Str.startswith in Hhttps.
  apply prefix_cons_inv in Hhttps as (r' & [= -> ->] & Hhttps).
  apply prefix_cons_inv in Hhttps as (r'' & -> & _).
  by vm_compute in Hr.
Qed.

Lemma pairwise_disjoint_app fs gs :
  pairwise_disjoint (fs ++ gs) →
  pairwise_disjoint fs ∧ pairwise_disjoint gs
  ∧ ∀ x, x ∈ concat fs → x ∉ concat gs.
Proof.
  induction fs as [|f fs IH]; simpl.
  - intros Hgs. split_and!; [done..|]. by intros x ?%elem_of_nil.
  - intros [Hf Hrest]. destruct (IH Hrest) as (Hfs & Hgs & Hcross).
    rewrite concat_app in Hf. rewrite Forall_forall in Hf. split_and!; [|done..|].
    + apply Forall_forall. intros x Hx. specialize (Hf x Hx).
      rewrite elem_of_app in Hf. tauto.
    + intros x [Hx|Hx]%elem_of_app; [|by apply Hcross].
      specialize (Hf x Hx). rewrite elem_of_app in Hf. tauto.
Qed.

Section Exclusivity.
Context `{Runtime}.

Lemma exclusivity_step_clean pre sites (sl : gset string) :
  (∀ x, x ∈ sites → x ∉ sl) →
  yields (exclusivity_step pre sites sl) (sl ∪ list_to_set sites) [].
Proof.
  intros Hclean. unfold exclusivity_step.
  rewrite bool_decide_eq_false_2; [apply yields_ret|].
  intros Hne. apply Hne. apply set_eq. intros x.
  rewrite elem_of_intersection, elem_of_list_to_set. set_solver.
Qed.

Lemma exclusivity_fold_clean pre : ∀ fs (sl : gset string),
  pairwise_disjoint fs →
  (∀ x, x ∈ concat fs → x ∉ sl) →
  yields (for_fold fs sl (λ site_list aliases, exclusivity_step pre aliases site_list))
    (sl ∪ list_to_set (concat fs)) [].
Proof.
  induction fs as [|f fs IH]; intros sl Hdisj Hclean.
  - cbn [for_fold concat]. rewrite list_to_set_nil, (right_id_L ∅ (∪)).
    apply yields_ret.
  - destruct Hdisj as [Hf Hfs]. rewrite Forall_forall in Hf.
    cbn [for_fold concat].
    apply (yields_bind _ _ (sl ∪ list_to_set f) [] _ []).
    + apply exclusivity_step_clean. intros x Hx. apply Hclean.
      simpl. apply elem_of_app. by left.
    + rewrite list_to_set_app_L, (assoc_L (∪)). apply IH; [done|].
      intros x Hx. rewrite elem_of_union, elem_of_list_to_set.
      intros [Hsl|Hxf]; [|by apply (Hf x Hxf)].
      apply (Hclean x); [|done]. simpl. apply elem_of_app. by right.
Qed.

(** A Set none of whose member sites is claimed already, nor listed
    twice: only its primary can be reported. *)
Lemma check_exclusivity_body_clean (sl : gset string) p rws :
  let sl1 := if decide (p ∈ sl) then sl else sl ∪ list_to_set (Str.chars p) in
  pairwise_disjoint (fields rws) →
  (∀ x, x ∈ member_sites rws → x ∉ sl1) →
  yields (check_exclusivity_body sl (p, rws))
    (sl1 ∪ list_to_set (member_sites rws))
    (if decide (p ∈ sl) then [primary_overlap_error p] else []).
Proof.
  intros sl1 (Hassoc & Hsvc & Hcc) Hclean. unfold check_exclusivity_body.
  rewrite Forall_forall in Hassoc. rewrite Forall_forall in Hsvc.
  unfold member_sites, fields in *. cbn [concat] in *.
  rewrite <-(app_nil_r (if decide _ then _ else _)).
  apply (yields_bind _ _ sl1).
  { subst sl1. destruct (decide (p ∈ sl)) as [Hp|Hp].
    - rewrite bool_decide_eq_true_2 by done.
      apply (yields_bind _ _ () [_] _ []); [apply yields_append|apply yields_ret].
    - rewrite bool_decide_eq_false_2 by done. apply yields_ret. }
  apply (yields_bind _ _ (sl1 ∪ list_to_set (associated_sites rws)) [] _ []).
  { apply exclusivity_step_clean. intros x Hx. apply Hclean.
    apply elem_of_app. by left. }
  apply (yields_bind _ _
           (sl1 ∪ list_to_set (associated_sites rws)
                ∪ list_to_set (service_sites rws)) [] _ []).
  { apply exclusivity_step_clean. intros x Hx.
    rewrite elem_of_union, elem_of_list_to_set. intros [Hsl|Hxa].
    - apply (Hclean x); [|done]. rewrite !elem_of_app. auto.
    - apply (Hassoc x Hxa). apply elem_of_app. by left. }
  rewrite !list_to_set_app_L, !(assoc_L (∪)).
  apply exclusivity_fold_clean; [done|].
  intros x Hx. rewrite !elem_of_union, !elem_of_list_to_set.
  intros [[Hsl|Hxa]|Hxs].
  - apply (Hclean x); [|done]. rewrite !elem_of_app. auto.
  - apply (Hassoc x Hxa). apply elem_of_app. by right.
  - by apply (Hsvc x Hxs).
Qed.

End Exclusivity.

(** Two Sets of which the first iterated has the primary of the second
    among its associated sites, and which share no other site: one error,
    about that primary. *)
Lemma check_exclusivity_associated_then_primary `{Runtime}
    (pA pB : string) (A B : RwsSet) (s : state) :
  pB ∈ associated_sites A →
  Forall (λ site, url_is_https site = true) (member_sites A ++ member_sites B) →
  pA ∉ member_sites A ++ member_sites B →
  pairwise_disjoint (fields A ++ fields B) →
  errors_of (exec (check_exclusivity [(pA, A); (pB, B)]) s)
  = errors_of s ++ [primary_overlap_error pB].
Proof.
  intros HpB Hhttps _ Hdisj.
  apply pairwise_disjoint_app in Hdisj as (HA & HB & Hcross).
  rewrite Forall_forall in Hhttps.
  assert (∀ p x, x ∈ member_sites A ++ member_sites B →
                 x ∉ (list_to_set (Str.chars p) : gset string)) as Hchars.
  { intros p x Hx Hin. apply elem_of_list_to_set in Hin.
    apply chars_not_https in Hin. by rewrite (Hhttps x Hx) in Hin. }
  pose (slA := (∅ ∪ list_to_set (Str.chars pA)) ∪ list_to_set (member_sites A)
               : gset string).
  apply (yields_exec _ ()). unfold check_exclusivity, check_exclusivity_loop.
  cbn [for_fold].
  apply (yields_bind _ _ (slA ∪ list_to_set (member_sites B)) [_] _ []);
    [|apply yields_ret].
  apply (yields_bind _ _ slA [] _ [_]).
  - pose proof (check_exclusivity_body_clean ∅ pA A) as Hbody.
    rewrite !decide_False in Hbody by set_solver. apply Hbody; [done|].
    intros x Hx. rewrite (left_id_L ∅ (∪)). apply Hchars, elem_of_app. by left.
  - assert (pB ∈ slA) as HpB'.
    { subst slA. rewrite elem_of_union, elem_of_list_to_set. right.
      unfold member_sites, fields. simpl. apply elem_of_app. by left. }
    pose proof (check_exclusivity_body_clean slA pB B) as Hbody.
    rewrite !decide_True in Hbody by done.
    rewrite <-(app_nil_r [_]).
    apply (yields_bind _ _ (slA ∪ list_to_set (member_sites B)) [_] _ []);
      [|apply yields_ret].
    apply Hbody; [done|].
    intros x Hx. subst slA.
    rewrite !elem_of_union, !elem_of_list_to_set, elem_of_empty.
    intros [[[]|Hc]|HxA].
    + apply (Hchars pA x); [apply elem_of_app; by right|].
      by apply elem_of_list_to_set.
    + by apply (Hcross x HxA).
Qed.

(** * Further properties *)

(** ** The scheme and the eTLD+1 traversals *)

Section Visit.
Context `{Runtime}.

Lemma find_non_https_urls_visit cs :
  find_non_https_urls cs = visit_sites url_is_https non_https_error cs.
Proof. reflexivity. Qed.

Lemma find_invalid_eTLD_Plus1_visit cs s :
  find_invalid_eTLD_Plus1 cs s
  = visit_sites (is_eTLD_Plus1 (self s)) not_eTLD_Plus1_error cs s.
Proof. unfold find_invalid_eTLD_Plus1. by rewrite run_bind. Qed.

Lemma yields_when_labelled (ok : string → bool) (err : string * string → string)
    (label site : string) :
  yields (when (negb (ok site)) (append_error (err (label, site)))) ()
    (err <$> filter (λ ls : string * string, ok ls.2 = false) [(label, site)]).
Proof.
  rewrite filter_cons, filter_nil. cbn [snd].
  destruct (ok site); cbn [negb when].
  - rewrite decide_False by done. apply yields_ret.
  - rewrite decide_True by done. apply yields_append.
Qed.

Lemma yields_for_each_labelled (ok : string → bool) (err : string * string → string)
    (label : string) (sites : list string) :
  yields (for_each sites (λ site,
            when (negb (ok site)) (append_error (err (label, site))))) ()
    (err <$> filter (λ ls : string * string, ok ls.2 = false) (pair label <$> sites)).
Proof.
  induction sites as [|site sites IH]; [apply yields_ret|].
  cbn [for_each]. rewrite fmap_cons.
  change (?x :: ?l) with ([x] ++ l). rewrite filter_app, fmap_app.
  apply (yields_bind _ _ ()); [apply yields_when_labelled | apply IH].
Qed.

Lemma filter_concat {A} (P : A → Prop) `{∀ x, Decision (P x)} (ls : list (list A)) :
  filter P (concat ls) = concat ((λ l, filter P l) <$> ls).
Proof.
  induction ls as [|l ls IH]; [done|]. simpl. by rewrite filter_app, IH.
Qed.

Lemma fmap_concat {A B} (f : A → B) (ls : list (list A)) :
  fmap (M:=list) f (concat ls) = concat (fmap (M:=list) (fmap (M:=list) f) ls).
Proof.
  induction ls as [|l ls IH]; [done|]. simpl. by rewrite fmap_app, IH.
Qed.

Lemma visit_sites_yields (ok : string → bool) (err : string * string → string) cs :
  yields (visit_sites ok err cs) ()
    (err <$> filter (λ ls, ok ls.2 = false) (labelled_sites cs)).
Proof.
  unfold visit_sites, labelled_sites.
  rewrite filter_concat, fmap_concat, <-!list_fmap_compose.
  apply yields_for_each. intros [p curr_set] _. cbn [compose].
  unfold labelled_sites_of. cbn [fst snd].
  change (?x :: ?l ++ ?l') with ([x] ++ (l ++ l')).
  rewrite !filter_app, !fmap_app.
  apply (yields_bind _ _ ()); [apply yields_when_labelled|].
  apply (yields_bind _ _ ()).
  { rewrite filter_concat, fmap_concat, <-!list_fmap_compose.
    apply yields_for_each. intros [aliased_site aliases] _. cbn [compose fst snd].
    change (?x :: ?l) with ([x] ++ l). rewrite filter_app, fmap_app.
    apply (yields_bind _ _ ());
      [apply yields_when_labelled | apply yields_for_each_labelled]. }
  apply (yields_bind _ _ ()); apply yields_for_each_labelled.
Qed.

End Visit.

Lemma app_eq_self {A} (l m : list A) : l ++ m = l ↔ m = [].
Proof.
  split; [|intros ->; apply app_nil_r].
  intros Heq. apply (app_inv_head l). by rewrite app_nil_r.
Qed.

Lemma filter_false_nil {A} (ok : A → bool) (l : list A) :
  filter (λ x, ok x = false) l = [] ↔ Forall (λ x, ok x = true) l.
Proof.
  induction l as [|x l IH]; [done|]. rewrite filter_cons, Forall_cons.
  destruct (ok x) eqn:Hx.
  - rewrite decide_False by done. rewrite IH. tauto.
  - rewrite decide_True by done. split; [done|]. by intros [? _].
Qed.

Lemma logged_nothing `{Runtime} {A} (m : M A) v (f : string * string → string)
    (l : list (string * string)) s :
  yields m v (f <$> l) →
  errors_of (exec m s) = errors_of s ++ (f <$> l)
  ∧ (errors_of (exec m s) = errors_of s ↔ l = []).
Proof.
  intros Hm. rewrite (yields_exec m v _ s Hm). split; [done|].
  rewrite app_eq_self. split; [apply fmap_nil_inv | by intros ->].
Qed.

(** X1.  [find_non_https_urls] appends, for every Set in map order, one
    error for each site that does not begin with ["https://"], naming its
    field: the primary first, then every aliased site followed by its
    aliases, then the associated sites, then the service sites.  It appends
    nothing exactly when every site begins with ["https://"]. *)
Theorem find_non_https_urls_errors `{Runtime} (cs : dict RwsSet) (s : state) :
  errors_of (exec (find_non_https_urls cs) s)
  = errors_of s
    ++ (non_https_error
        <$> filter (λ ls, url_is_https ls.2 = false) (labelled_sites cs))
  ∧ (errors_of (exec (find_non_https_urls cs) s) = errors_of s
     ↔ Forall (λ ls, url_is_https ls.2 = true) (labelled_sites cs)).
Proof.
  rewrite find_non_https_urls_visit, <-filter_false_nil.
  apply (logged_nothing _ ()), visit_sites_yields.
Qed.

(** X2.  [find_invalid_eTLD_Plus1] visits the sites as [find_non_https_urls]
    does and appends one error for each site that [is_eTLD_Plus1] rejects,
    naming its field; it appends nothing exactly when every site is
    accepted. *)
Theorem find_invalid_eTLD_Plus1_errors `{Runtime} (cs : dict RwsSet) (s : state) :
  errors_of (exec (find_invalid_eTLD_Plus1 cs) s)
  = errors_of s
    ++ (not_eTLD_Plus1_error
        <$> filter (λ ls, is_eTLD_Plus1 (self s) ls.2 = false) (labelled_sites cs))
  ∧ (errors_of (exec (find_invalid_eTLD_Plus1 cs) s) = errors_of s
     ↔ Forall (λ ls, is_eTLD_Plus1 (self s) ls.2 = true) (labelled_sites cs)).
Proof.
  unfold exec. rewrite find_invalid_eTLD_Plus1_visit.
  rewrite <-(filter_false_nil (λ ls, is_eTLD_Plus1 (self s) ls.2)).
  apply (logged_nothing _ ()), visit_sites_yields.
Qed.

(** ** Requests, one after the other *)

Section Requests.
Context `{Runtime}.

(** A loop whose body makes the request [io x] and logs a verdict on its
    outcome makes the requests of [request_each] and logs the verdicts in
    order. *)
Lemma for_each_io {A R} (io : A → World → R * World)
    (verdict : A → R → list string) (body : A → M unit) :
  (∀ x s,
     body x s
     = let '(r, w) := io x (net s) in ((), log (verdict x r) (State (self s) w))) →
  ∀ xs s,
    exec (for_each xs body) s
    = log (concat (zip_with verdict xs (request_each io xs (net s)).1))
        (State (self s) (request_each io xs (net s)).2).
Proof.
  intros Hbody xs. induction xs as [|x xs IH]; intros s.
  - cbn. rewrite log_nil. by destruct s.
  - cbn [for_each request_each]. rewrite exec_bind.
    unfold exec at 2. rewrite Hbody.
    destruct (io x (net s)) as [r w]. cbn [fst snd].
    rewrite IH. cbn [net self log].
    destruct (request_each io xs w) as [rs w']. cbn [fst snd zip_with concat].
    unfold log. cbn. by rewrite <-app_assoc.
Qed.

Lemma request_each_length {A R} (io : A → World → R * World) xs : ∀ w,
  length (request_each io xs w).1 = length xs.
Proof.
  induction xs as [|x xs IH]; intros w; [done|].
  cbn [request_each]. destruct (io x w) as [r w1].
  specialize (IH w1). destruct (request_each io xs w1). simpl in *. by rewrite IH.
Qed.

Lemma request_each_app {A R} (io : A → World → R * World) xs ys w :
  request_each io (xs ++ ys) w
  = ((request_each io xs w).1 ++ (request_each io ys (request_each io xs w).2).1,
     (request_each io ys (request_each io xs w).2).2).
Proof.
  revert w. induction xs as [|x xs IH]; intros w.
  - cbn. by destruct (request_each io ys w).
  - cbn [request_each app]. destruct (io x w) as [r w1]. rewrite IH.
    destruct (request_each io xs w1) as [rs w2]. cbn [fst snd]. done.
Qed.

Lemma check_list_sites_site_run primary site s :
  (let url := site +:+ WELL_KNOWN in
   r ← open_and_load_json url;
   match r with
   | Loaded json_schema =>
       match wk_primary json_schema with
       | None =>
           append_error
             ("The listed associated site site did not have primary"
              +:+ " as a key in its " +:+ WELL_KNOWN +:+ " file: " +:+ site)
       | Some listed =>
           when (bool_decide (listed ≠ primary))
             (append_error
                ("The listed associated site "
                 +:+ "did not have " +:+ primary
                 +:+ " listed as its primary: " +:+ site))
       end
   | JsonRaised inst =>
       append_error
         ("Experienced an error when trying to access " +:+ url +:+ "; "
          +:+ "error was: " +:+ inst)
   end) s
  = let '(r, w) := load_well_known site (net s) in
    ((), log (member_verdict primary site r) (State (self s) w)).
Proof.
  cbn zeta. rewrite run_bind. unfold open_and_load_json, request, load_well_known.
  destruct (urlopen_json_load _ (net s)) as [r w]. cbn [fst snd].
  unfold member_verdict. destruct r as [js|inst]; [|done].
  destruct (wk_primary js) as [listed|]; [|done].
  case_bool_decide; [done|]. cbn. by rewrite log_nil.
Qed.

Lemma check_list_sites_exec primary site_list s :
  exec (check_list_sites primary site_list) s
  = log (concat (zip_with (member_verdict primary) site_list
                   (request_each load_well_known site_list (net s)).1))
      (State (self s) (request_each load_well_known site_list (net s)).2).
Proof.
  unfold check_list_sites.
  apply (for_each_io load_well_known (member_verdict primary)).
  intros site s'. apply check_list_sites_site_run.
Qed.

End Requests.

(** X3.  [check_list_sites] requests the well-known file of every site of
    its list once, in order, whatever the earlier requests returned or
    raised, and appends at most one error per site: none exactly when the
    file was loaded and lists the given primary as its primary. *)
Theorem check_list_sites_trace `{Runtime} (primary : string)
    (site_list : list string) (s : state) :
  let outcomes := (request_each load_well_known site_list (net s)).1 in
  length outcomes = length site_list ∧
  net (exec (check_list_sites primary site_list) s)
  = (request_each load_well_known site_list (net s)).2 ∧
  errors_of (exec (check_list_sites primary site_list) s)
  = errors_of s ++ concat (zip_with (member_verdict primary) site_list outcomes) ∧
  (∀ site r, (length (member_verdict primary site r) ≤ 1)%nat) ∧
  (∀ site r, member_verdict primary site r = []
             ↔ ∃ json_schema, r = Loaded json_schema
                              ∧ wk_primary json_schema = Some primary).
Proof.
  intros outcomes. subst outcomes. split; [apply request_each_length|].
  rewrite check_list_sites_exec. split_and!; [done..| |].
  - intros site r. unfold member_verdict. repeat case_match; simpl; lia.
  - intros site r. unfold member_verdict. destruct r as [js|inst].
    + destruct (wk_primary js) as [listed|] eqn:Hp.
      * case_bool_decide as Hne.
        -- split; [done|]. intros (js' & [= <-] & Hjs). congruence.
        -- subst. split; [|done]. intros _. by exists js.
      * split; [done|]. intros (js' & [= <-] & Hjs). congruence.
    + split; [done|]. by intros (js' & ? & _).
Qed.

Section Status_checks.
Context `{Runtime}.

Lemma find_invalid_removal_site_run primary s :
  (let url := primary +:+ WELL_KNOWN in
   r ← request (requests_get url true);
   match r with
   | Responded r =>
       when (bool_decide (status_code r ≠ 404))
         (append_error
            ("The set associated with " +:+ primary
             +:+ " was removed from the list, but " +:+ url
             +:+ " does not return error 404."))
   | HttpRaised inst =>
       append_error
         ("Unexpected error when accessing " +:+ url
          +:+ "; Received error: " +:+ inst)
   end) s
  = let '(r, w) := requests_get (primary +:+ WELL_KNOWN) true (net s) in
    ((), log (removal_verdict primary r) (State (self s) w)).
Proof.
  cbn zeta. rewrite run_bind. unfold request.
  destruct (requests_get _ true (net s)) as [r w]. cbn [fst snd].
  unfold removal_verdict. destruct r as [r|inst]; [|done].
  case_bool_decide; [done|]. cbn. by rewrite log_nil.
Qed.

Lemma check_for_service_redirect_site_run service_site s :
  check_for_service_redirect_site service_site s
  = let '(r, w) := requests_get service_site true (net s) in
    ((), log (redirect_verdict service_site r) (State (self s) w)).
Proof.
  unfold check_for_service_redirect_site. rewrite run_bind. unfold request.
  destruct (requests_get _ true (net s)) as [r w]. cbn [fst snd].
  unfold redirect_verdict, exception_retries, exception_timeout.
  destruct r as [r|inst].
  - destruct (bool_decide (status_code r < 400) || bool_decide (600 ≤ status_code r));
      cbn; [|by rewrite log_nil].
    destruct (bool_decide (url r = service_site)
              || bool_decide (url r = service_site +:+ "/"));
      cbn; [done|by rewrite log_nil].
  - destruct (Str.contains "Max retries exceeded with url: /" inst);
      cbn; [by rewrite log_nil|].
    destruct (Str.contains "Read timed out. (read timeout=10)" inst);
      cbn; [by rewrite log_nil|done].
Qed.

Lemma check_for_service_redirect_flat cs s :
  check_for_service_redirect cs s
  = for_each (all_service_sites cs) check_for_service_redirect_site s.
Proof.
  unfold all_service_sites. rewrite <-for_each_concat. reflexivity.
Qed.

End Status_checks.

(** X4.  [find_invalid_removal] requests the well-known file of every
    removed primary once, in map order, and appends at most one error per
    primary: none exactly when the request returned a response with status
    404.  Every exception is reported: none is taken as a sign of removal. *)
Theorem find_invalid_removal_trace `{Runtime} (subtracted_sets : dict RwsSet)
    (s : state) :
  let primaries := keys subtracted_sets in
  let address := λ primary, primary +:+ WELL_KNOWN in
  let outcomes := (fetch_each address true primaries (net s)).1 in
  length outcomes = length primaries ∧
  net (exec (find_invalid_removal subtracted_sets) s)
  = (fetch_each address true primaries (net s)).2 ∧
  errors_of (exec (find_invalid_removal subtracted_sets) s)
  = errors_of s ++ concat (zip_with removal_verdict primaries outcomes) ∧
  (∀ primary r, (length (removal_verdict primary r) ≤ 1)%nat) ∧
  (∀ primary r, removal_verdict primary r = []
                ↔ ∃ resp, r = Responded resp ∧ status_code resp = 404).
Proof.
  intros primaries address outcomes. subst primaries address outcomes.
  split; [apply fetch_each_length|].
  unfold find_invalid_removal.
  rewrite (for_each_request (λ primary, primary +:+ WELL_KNOWN) true removal_verdict
             _ find_invalid_removal_site_run).
  split_and!; [done..| |].
  - intros p r. unfold removal_verdict. repeat case_match; simpl; lia.
  - intros p r. unfold removal_verdict. destruct r as [resp|inst].
    + case_bool_decide as Hne.
      * split; [done|]. by intros (resp' & [= <-] & ?).
      * split; [|done]. intros _. by exists resp.
    + split; [done|]. by intros (resp' & ? & _).
Qed.

(** X5.  [check_for_service_redirect] requests every service site once, in
    order, and appends at most one error per site.  A response is reported
    exactly when its status is below 400 or at least 600 and its final URL is
    the site, with or without a trailing slash; an exception is reported
    exactly when its text shows neither the max-retries pattern nor the read
    timeout pattern. *)
Theorem check_for_service_redirect_trace `{Runtime} (cs : dict RwsSet) (s : state) :
  let sites := all_service_sites cs in
  let outcomes := (fetch_each (λ site, site) true sites (net s)).1 in
  length outcomes = length sites ∧
  net (exec (check_for_service_redirect cs) s)
  = (fetch_each (λ site, site) true sites (net s)).2 ∧
  errors_of (exec (check_for_service_redirect cs) s)
  = errors_of s ++ concat (zip_with redirect_verdict sites outcomes) ∧
  (∀ site r, (length (redirect_verdict site r) ≤ 1)%nat) ∧
  (∀ site resp,
     redirect_verdict site (Responded resp) = [endpoint_error site]
     ↔ (status_code resp < 400 ∨ 600 ≤ status_code resp)
       ∧ (url resp = site ∨ url resp = site +:+ "/")) ∧
  (∀ site inst,
     redirect_verdict site (HttpRaised inst) = []
     ↔ Str.contains "Max retries exceeded with url: /" inst = true
       ∨ Str.contains "Read timed out. (read timeout=10)" inst = true).
Proof.
  intros sites outcomes. subst sites outcomes.
  split; [apply fetch_each_length|].
  unfold exec. rewrite check_for_service_redirect_flat.
  pose proof (for_each_request (λ site, site) true redirect_verdict
                _ check_for_service_redirect_site_run (all_service_sites cs) s)
    as Hrun.
  unfold exec in Hrun. rewrite Hrun. split_and!; [done..| | |].
  - intros site r. unfold redirect_verdict. repeat case_match; simpl; lia.
  - intros site resp. unfold redirect_verdict.
    rewrite <-!bool_decide_or, <-bool_decide_and. case_bool_decide; naive_solver.
  - intros site inst. unfold redirect_verdict.
    destruct (Str.contains "Max retries exceeded with url: /" inst);
      [naive_solver|].
    destruct (Str.contains "Read timed out. (read timeout=10)" inst);
      naive_solver.
Qed.

Lemma robots_verdict_accepted service_site r :
  robots_verdict service_site r = []
  ↔ ∃ resp robots_tag,
      r = Responded resp ∧ x_robots_tag resp = Some robots_tag
      ∧ Str.contains ":" robots_tag = false
      ∧ (Str.contains "none" robots_tag = true
         ∨ Str.contains "noindex" robots_tag = true).
Proof.
  unfold robots_verdict. destruct r as [resp|inst].
  - destruct (x_robots_tag resp) as [tag|] eqn:Htag.
    + destruct (Str.contains ":" tag) eqn:Hcolon.
      * split; [done|].
        intros (resp' & tag' & [= <-] & Htag' & Hc & _). congruence.
      * destruct (Str.contains "none" tag) eqn:Hnone.
        { split; [|done]. intros _. by eauto 10. }
        destruct (Str.contains "noindex" tag) eqn:Hnoindex.
        { split; [|done]. intros _. by eauto 10. }
        split; [done|].
        intros (resp' & tag' & [= <-] & Htag' & _ & Hor).
        rewrite Htag in Htag'. injection Htag' as <-.
        destruct Hor; congruence.
    + split; [done|].
      intros (resp' & tag' & [= <-] & Htag' & _). congruence.
  - split; [done|]. by intros (resp' & tag' & ? & _).
Qed.

(** X6.  For one service site, [find_robots_tag] makes one request, without
    following redirects, and appends at most one error: none exactly when
    the request returned a response that has an [X-Robots-Tag] header
    without [':'] in which ["none"] or ["noindex"] occurs.  A missing header,
    a header with [':'], a header with neither word and any exception are
    reported. *)
Theorem find_robots_tag_site_verdict `{Runtime} (service_site : string) (s : state) :
  let r := (requests_get service_site false (net s)).1 in
  (errors_of (exec (find_robots_tag_site service_site) s) = errors_of s
   ↔ ∃ resp robots_tag,
       r = Responded resp ∧ x_robots_tag resp = Some robots_tag
       ∧ Str.contains ":" robots_tag = false
       ∧ (Str.contains "none" robots_tag = true
          ∨ Str.contains "noindex" robots_tag = true))
  ∧ net (exec (find_robots_tag_site service_site) s)
    = (requests_get service_site false (net s)).2
  ∧ ∃ verdict,
      errors_of (exec (find_robots_tag_site service_site) s)
      = errors_of s ++ verdict
      ∧ (length verdict ≤ 1)%nat.
Proof.
  intros r. subst r.
  unfold exec. rewrite find_robots_tag_site_run.
  destruct (requests_get service_site false (net s)) as [r w]. cbn [fst snd].
  rewrite errors_of_log. change (errors_of (State (self s) w)) with (errors_of s).
  rewrite app_eq_self. split_and!; [apply robots_verdict_accepted|done|].
  exists (robots_verdict service_site r). split; [done|].
  apply robots_verdict_length.
Qed.

(** ** [find_invalid_well_known] *)

Section Well_known.
Context `{Runtime}.

Lemma for_each_ext {A} (xs : list A) (b1 b2 : A → M unit) s :
  (∀ x s, b1 x s = b2 x s) → for_each xs b1 s = for_each xs b2 s.
Proof.
  intros Hb. revert s. induction xs as [|x xs IH]; intros s; [done|].
  cbn [for_each]. by rewrite !run_bind, Hb, IH.
Qed.

Lemma for_each_fmap {A B} (f : A → B) (xs : list A) (body : B → M unit) s :
  for_each (f <$> xs) body s = for_each xs (λ x, body (f x)) s.
Proof.
  revert s. induction xs as [|x xs IH]; intros s; [done|].
  cbn [for_each fmap list_fmap]. by rewrite !run_bind, IH.
Qed.

Lemma probe_body_run pr s :
  probe_body pr s
  = let '(r, w) := load_well_known (probe_site pr) (net s) in
    ((), log (probe_verdict pr r) (State (self s) w)).
Proof.
  unfold probe_body. rewrite run_bind. unfold request.
  by destruct (load_well_known (probe_site pr) (net s)) as [r w].
Qed.

Lemma check_list_sites_probes primary site_list s :
  check_list_sites primary site_list s
  = for_each (MemberOf primary <$> site_list) probe_body s.
Proof.
  rewrite for_each_fmap. unfold check_list_sites. apply for_each_ext.
  intros site s'. rewrite probe_body_run. apply check_list_sites_site_run.
Qed.

Lemma manifest_comparison_yields primary_key curr_rws_set json_schema :
  yields
    (let well_known_set :=
       RwsSet_init (wk_ccTLDs json_schema) (wk_primary json_schema)
         (wk_associatedSites json_schema) (wk_serviceSites json_schema) in
     when (bool_decide (primary well_known_set ≠ primary curr_rws_set))
       (append_error
          ("The " +:+ WELL_KNOWN +:+ " set's primary ("
           +:+ Str.of_option (primary well_known_set) +:+ ") did not equal "
           +:+ "the PR set's primary ("
           +:+ Str.of_option (primary curr_rws_set) +:+ ")"));;
     extend_errors
       (check_well_known_list "associatedSites"
          (associated_sites curr_rws_set) (associated_sites well_known_set));;
     extend_errors
       (check_well_known_list "serviceSites"
          (service_sites curr_rws_set) (service_sites well_known_set));;
     for_each (union_keys (ccTLDs curr_rws_set) (ccTLDs well_known_set))
       (λ aliased_site,
          extend_errors
            (check_well_known_list (aliased_site +:+ " alias list")
               (default [] (dict_get (ccTLDs curr_rws_set) aliased_site))
               (default [] (dict_get (ccTLDs well_known_set) aliased_site)))))
    () (manifest_verdict primary_key curr_rws_set (Loaded json_schema)).
Proof.
  cbn zeta. unfold manifest_verdict, well_known_set_of.
  apply (yields_bind _ _ ()); [apply (yields_when _ _ [_]), yields_append|].
  apply (yields_bind _ _ ()); [apply yields_extend|].
  apply (yields_bind _ _ ()); [apply yields_extend|].
  apply yields_for_each. intros aliased_site _. apply yields_extend.
Qed.

Lemma find_invalid_well_known_probes cs s :
  find_invalid_well_known cs s = for_each (probes cs) probe_body s.
Proof.
  unfold probes. rewrite <-(for_each_concat probes_of cs probe_body s).
  unfold find_invalid_well_known. apply for_each_ext.
  intros [p curr] s'. unfold probes_of. cbn [fst snd for_each].
  rewrite !run_bind. rewrite <-check_list_sites_probes.
  unfold member_sites, fields. cbn [concat].
  f_equal.
  rewrite probe_body_run. unfold open_and_load_json, request, load_well_known.
  cbn [probe_site].
  destruct (urlopen_json_load (p +:+ WELL_KNOWN) (net s')) as [r w]. cbn [fst snd].
  destruct r as [js|inst]; [|done].
  cbn [probe_verdict]. by rewrite (manifest_comparison_yields p curr js).
Qed.

End Well_known.

Section Well_known_verdicts.
Context `{Runtime}.

Lemma check_well_known_list_nil field l1 l2 :
  check_well_known_list field l1 l2 = [] ↔ l1 = l2.
Proof. unfold check_well_known_list. by case_bool_decide. Qed.

Lemma concat_fmap_nil {A B} (f : A → list B) (l : list A) :
  concat (f <$> l) = [] ↔ ∀ x, x ∈ l → f x = [].
Proof.
  induction l as [|x l IH]; simpl.
  - split; [by intros _ ? ?%elem_of_nil | done].
  - split.
    + intros [Hx Hl]%app_eq_nil y [->|Hy]%elem_of_cons; [done|]. by apply IH.
    + intros Hall. rewrite (Hall x) by left. apply IH.
      intros y Hy. apply Hall. by right.
Qed.

Lemma elem_of_union_keys {V} (d1 d2 : dict V) k :
  k ∈ union_keys d1 d2 ↔ k ∈ keys d1 ∨ k ∈ keys d2.
Proof.
  unfold union_keys. rewrite elem_of_app, list_elem_of_filter.
  destruct (decide (k ∈ keys d1)); tauto.
Qed.

Lemma probe_verdict_nil pr r : probe_verdict pr r = [] ↔ probe_accepts pr r.
Proof.
  unfold probe_accepts. destruct pr as [p curr|p site]; cbn [probe_verdict].
  - unfold manifest_verdict, manifest_agrees. destruct r as [js|inst].
    + rewrite !app_nil, !check_well_known_list_nil, concat_fmap_nil.
      setoid_rewrite check_well_known_list_nil.
      setoid_rewrite elem_of_union_keys.
      split.
      * intros (Hp & Ha & Hs & Hcc). exists js. split; [done|].
        split_and!; [|done..]. by case_bool_decide.
      * intros (js' & [= <-] & Hp & Ha & Hs & Hcc). split_and!; [|done..].
        by rewrite bool_decide_eq_false_2 by (by intros ?).
    + split; [done|]. by intros (js' & ? & _).
  - unfold member_verdict. destruct r as [js|inst].
    + destruct (wk_primary js) as [listed|] eqn:Hp.
      * case_bool_decide as Hne.
        -- split; [done|]. intros (js' & [= <-] & Hjs). congruence.
        -- subst. split; [|done]. intros _. by exists js.
      * split; [done|]. intros (js' & [= <-] & Hjs). congruence.
    + split; [done|]. by intros (js' & ? & _).
Qed.

Lemma verdicts_nil {A R} (verdict : A → R → list string) (xs : list A) (rs : list R) :
  length rs = length xs →
  concat (zip_with verdict xs rs) = [] ↔ Forall2 (λ x r, verdict x r = []) xs rs.
Proof.
  revert rs. induction xs as [|x xs IH]; intros [|r rs] Hlen; try done.
  cbn [zip_with concat]. rewrite app_nil, Forall2_cons, IH; [done|].
  simpl in Hlen. lia.
Qed.

Lemma request_each_accepted {A R} (io : A → World → R * World)
    (accepts : A → R → Prop) (xs : list A) :
  (∀ x, x ∈ xs → ∀ w, accepts x (io x w).1) →
  ∀ w, Forall2 accepts xs (request_each io xs w).1.
Proof.
  induction xs as [|x xs IH]; intros Hall w; [constructor|].
  cbn [request_each]. pose proof (Hall x ltac:(left) w) as Hx.
  destruct (io x w) as [r w1].
  pose proof (IH (λ y Hy, Hall y ltac:(by right)) w1) as Hxs.
  destruct (request_each io xs w1) as [rs w2]. by constructor.
Qed.

Lemma find_invalid_well_known_exec cs s :
  exec (find_invalid_well_known cs) s
  = log (concat (zip_with probe_verdict (probes cs)
                   (request_each (λ pr, load_well_known (probe_site pr))
                      (probes cs) (net s)).1))
      (State (self s)
         (request_each (λ pr, load_well_known (probe_site pr))
            (probes cs) (net s)).2).
Proof.
  unfold exec. rewrite find_invalid_well_known_probes.
  apply (for_each_io (λ pr, load_well_known (probe_site pr)) probe_verdict
           probe_body probe_body_run).
Qed.

End Well_known_verdicts.

(** X7.  [find_invalid_well_known] requests, for every Set in map order, the
    well-known file of its primary and then that of each of its associated
    sites, service sites and aliases, every one once and whatever the earlier
    requests returned or raised.  The errors are the verdicts on the
    outcomes, in order; a verdict is empty exactly when the file was loaded
    and, for a primary, agrees with the Set (an alias list under a key of
    one side only is compared with the empty list) or, for a member site,
    names the primary.  So nothing is appended exactly when every outcome is
    accepted. *)
Theorem find_invalid_well_known_trace `{Runtime} (cs : dict RwsSet) (s : state) :
  let io := λ pr, load_well_known (probe_site pr) in
  let outcomes := (request_each io (probes cs) (net s)).1 in
  length outcomes = length (probes cs) ∧
  net (exec (find_invalid_well_known cs) s)
  = (request_each io (probes cs) (net s)).2 ∧
  errors_of (exec (find_invalid_well_known cs) s)
  = errors_of s ++ concat (zip_with probe_verdict (probes cs) outcomes) ∧
  (∀ pr r, probe_verdict pr r = [] ↔ probe_accepts pr r) ∧
  (errors_of (exec (find_invalid_well_known cs) s) = errors_of s
   ↔ Forall2 probe_accepts (probes cs) outcomes).
Proof.
  intros io outcomes. subst io outcomes.
  split; [apply request_each_length|].
  rewrite find_invalid_well_known_exec.
  split_and!; [done..|apply probe_verdict_nil|].
  rewrite errors_of_log. change (errors_of (State (self s) _)) with (errors_of s).
  rewrite app_eq_self, verdicts_nil by apply request_each_length.
  split; intros Hall; (eapply Forall2_impl; [exact Hall|]);
    intros pr r; apply probe_verdict_nil.
Qed.

(** X8.  On a network that serves, whenever asked, an agreeing file for the
    primary of every Set and a file naming that primary for each of its
    member sites, [find_invalid_well_known] appends nothing. *)
Theorem find_invalid_well_known_published `{Runtime} (cs : dict RwsSet) (s : state) :
  publishes cs →
  errors_of (exec (find_invalid_well_known cs) s) = errors_of s.
Proof.
  intros Hpub. rewrite find_invalid_well_known_exec, errors_of_log.
  change (errors_of (State (self s) _)) with (errors_of s).
  apply app_eq_self. apply verdicts_nil; [apply request_each_length|].
  eapply Forall2_impl; [by apply (request_each_accepted _ probe_accepts)|].
  intros pr r. apply probe_verdict_nil.
Qed.

Lemma find_invalid_well_known_published_witness :
  errors_of (exec (@find_invalid_well_known publishing_runtime [published_set])
               publishing_check)
  = [].
Proof.
  apply (@find_invalid_well_known_published publishing_runtime [published_set]
           publishing_check).
  intros pr Hpr w.
  change (probes [published_set])
    with [ManifestOf "https://one.example" published_set.2;
          MemberOf "https://one.example" "https://one-shop.example";
          MemberOf "https://one.example" "https://one-cdn.example";
          MemberOf "https://one.example" "https://one.de"] in Hpr.
  repeat (apply elem_of_cons in Hpr as [->|Hpr]).
  - exists published_manifest. split; [reflexivity|].
    split_and!; [reflexivity..|]. intros aliased_site _. reflexivity.
  - exists member_manifest. split; reflexivity.
  - exists member_manifest. split; reflexivity.
  - exists member_manifest. split; reflexivity.
  - by apply elem_of_nil in Hpr.
Defined.

(** ** [check_exclusivity] without overlap *)

Section Silent.
Context `{Runtime}.

Lemma all_member_fields_cons p rws cs :
  all_member_fields ((p, rws) :: cs) = fields rws ++ all_member_fields cs.
Proof. reflexivity. Qed.

Lemma check_exclusivity_loop_silent cs : ∀ (sl : gset string) seen,
  (∀ x, x ∈ sl → url_is_https x = true → x ∈ seen) →
  (∀ x, x ∈ seen → x ∉ concat (all_member_fields cs)) →
  Forall (λ site, url_is_https site = true)
    (keys cs ++ concat (all_member_fields cs)) →
  pairwise_disjoint (all_member_fields cs) →
  primaries_unclaimed seen cs →
  ∃ sl', yields (check_exclusivity_loop cs sl) sl' [].
Proof.
  induction cs as [|[p rws] cs IH]; intros sl seen Hsl Hseen Hhttps Hdisj Hprim.
  - exists sl. apply yields_ret.
  - rewrite all_member_fields_cons in *. rewrite concat_app in *.
    fold (member_sites rws) in *.
    apply pairwise_disjoint_app in Hdisj as (Hrws & Hcs & Hcross).
    fold (member_sites rws) in Hcross.
    destruct Hprim as [Hp Hprim]. cbn [fst snd] in Hp, Hprim.
    rewrite Forall_forall in Hhttps.
    assert (∀ x, x ∈ member_sites rws → url_is_https x = true) as Hmem.
    { intros x Hx. apply Hhttps. unfold keys. rewrite fmap_cons.
      rewrite !elem_of_app, elem_of_cons. auto. }
    assert (p ∉ sl) as Hpsl.
    { intros Hin. apply Hp, Hsl; [done|]. apply Hhttps.
      unfold keys. rewrite fmap_cons. apply elem_of_app. left. by left. }
    pose proof (check_exclusivity_body_clean sl p rws) as Hbody.
    rewrite !decide_False in Hbody by done.
    unshelve epose proof (Hbody Hrws _) as Hbody'.
    { intros x Hx. rewrite elem_of_union, elem_of_list_to_set.
      intros [Hin|Hin].
      - apply (Hseen x); [by apply Hsl, Hmem|]. apply elem_of_app. by left.
      - apply chars_not_https in Hin. by rewrite (Hmem x Hx) in Hin. }
    destruct (IH (sl ∪ list_to_set (Str.chars p) ∪ list_to_set (member_sites rws))
                (seen ++ member_sites rws)) as [sl' Hrest]; [| | |done|done|].
    + intros x. rewrite !elem_of_union, !elem_of_list_to_set, elem_of_app.
      intros [[Hin|Hin]|Hin] Hx; [left; by apply Hsl| |by right].
      apply chars_not_https in Hin. congruence.
    + intros x [Hx|Hx]%elem_of_app; [|by apply Hcross].
      intros Hin. apply (Hseen x Hx). apply elem_of_app. by right.
    + apply Forall_forall. intros x Hx. apply Hhttps.
      unfold keys in *. rewrite fmap_cons.
      rewrite !elem_of_app, elem_of_cons. rewrite elem_of_app in Hx. tauto.
    + exists sl'. unfold check_exclusivity_loop. cbn [for_fold].
      apply (yields_bind _ _
               (sl ∪ list_to_set (Str.chars p) ∪ list_to_set (member_sites rws))
               [] _ []); [exact Hbody'|exact Hrest].
Qed.

End Silent.

(** X9.  [check_exclusivity] appends nothing when every site begins with
    ["https://"], no associated site, service site or alias occurs in two
    site lists, and no primary is a member site of a Set iterated before its
    own.  Nothing is required of a primary that is a member site of a Set
    iterated after its own: [site_list.update(primary)] adds the characters
    of the primary, so that such a site is not met in [site_list]. *)
Theorem check_exclusivity_silent `{Runtime} (cs : dict RwsSet) (s : state) :
  Forall (λ site, url_is_https site = true)
    (keys cs ++ concat (all_member_fields cs)) →
  pairwise_disjoint (all_member_fields cs) →
  primaries_unclaimed [] cs →
  errors_of (exec (check_exclusivity cs) s) = errors_of s.
Proof.
  intros Hhttps Hdisj Hprim.
  destruct (check_exclusivity_loop_silent cs ∅ [] ) as [sl' Hloop]; try done.
  - intros x Hx. by apply elem_of_nil in Hx.
  - rewrite <-(app_nil_r (errors_of s)). apply (yields_exec _ ()).
    unfold check_exclusivity.
    apply (yields_bind _ _ sl' [] _ []); [done|apply yields_ret].
Qed.

Lemma check_exclusivity_silent_witness :
  "https://b.example" ∈ associated_sites claims_b.2
  ∧ errors_of (exec (@check_exclusivity example_runtime [claimed_b; claims_b])
                 (example_check []))
    = [].
Proof.
  split; [apply (bool_decide_unpack _); vm_compute; exact I|].
  apply (@check_exclusivity_silent example_runtime [claimed_b; claims_b]
           (example_check [])).
  - apply (bool_decide_unpack _). vm_compute. exact I.
  - apply (bool_decide_unpack _). vm_compute. exact I.
  - apply (bool_decide_unpack _). vm_compute. exact I.
Defined.

(** ** [load_sets] without duplicates *)

Lemma occurrences_nil_iff (l : list string) :
  l = [] ↔ ∀ p, occurrences p l = 0%nat.
Proof.
  split; [by intros ->|]. destruct l as [|x l]; [done|].
  intros Hocc. specialize (Hocc x). rewrite occurrences_cons in Hocc.
  by rewrite decide_True in Hocc.
Qed.

Lemma occurrences_elem_of p (l : list string) :
  (0 < occurrences p l)%nat ↔ p ∈ l.
Proof.
  induction l as [|x l IH].
  { rewrite elem_of_nil. unfold occurrences. rewrite filter_nil. simpl. lia. }
  rewrite occurrences_cons, elem_of_cons.
  case_decide; subst; [split; [by left|lia]|].
  rewrite <-IH. split; [intros ?; right; lia|intros [?|?]; [done|lia]].
Qed.

Lemma NoDup_occurrences (l : list string) :
  NoDup l ↔ ∀ p, (occurrences p l ≤ 1)%nat.
Proof.
  induction l as [|x l IH].
  - split; [intros _ p | constructor].
    unfold occurrences. rewrite filter_nil. simpl. lia.
  - rewrite NoDup_cons, IH. split.
    + intros [Hx Hl] p. rewrite occurrences_cons. case_decide; subst.
      * assert (¬ (0 < occurrences p l)%nat) by by rewrite occurrences_elem_of.
        lia.
      * apply Hl.
    + intros Hocc. split.
      * intros Hx%occurrences_elem_of. specialize (Hocc x).
        rewrite occurrences_cons, decide_True in Hocc by done. lia.
      * intros p. specialize (Hocc p). rewrite occurrences_cons in Hocc. lia.
Qed.

Lemma first_records_from_NoDup sets : ∀ seen,
  NoDup (rec_primary <$> sets) →
  (∀ p, p ∈ seen → p ∉ rec_primary <$> sets) →
  first_records_from seen sets = sets.
Proof.
  induction sets as [|r sets IH]; intros seen Hnd Hseen; [done|].
  rewrite fmap_cons in Hnd, Hseen. apply NoDup_cons in Hnd as [Hr Hnd].
  cbn [first_records_from]. rewrite decide_False.
  - f_equal. apply IH; [done|].
    intros p [Hp| ->%list_elem_of_singleton]%elem_of_app; [|done].
    intros Hin. apply (Hseen p Hp). by right.
  - intros Hin. apply (Hseen _ Hin). by left.
Qed.

(** X10.  [load_sets] appends nothing exactly when no primary is listed
    twice in the document; the map it then returns holds every record, in
    document order. *)
Theorem load_sets_without_duplicates `{Runtime} (s : state) :
  let sets := rws_sites (self s) in
  (errors_of (exec load_sets s) = errors_of s ↔ NoDup (rec_primary <$> sets))
  ∧ (NoDup (rec_primary <$> sets) →
     (load_sets s).1 = (λ r, (rec_primary r, set_of_record r)) <$> sets).
Proof.
  intros sets. subst sets. split.
  - destruct (load_sets_loop_spec (rws_sites (self s)) [] [] (NoDup_nil_2))
      as (_ & _ & dups & Herr & _ & Hocc).
    unfold exec. rewrite load_sets_run. unfold errors_of, load_sets_loop.
    cbn -[foldl]. rewrite app_eq_self.
    match goal with
    | |- context [ (?res).2 ] =>
        replace (res.2) with (already_primary <$> dups) by (symmetry; exact Herr)
    end.
    assert (∀ p, occurrences p dups
                 = (occurrences p (rec_primary <$> rws_sites (self s)) - 1)%nat)
      as Hocc'.
    { intros p. rewrite Hocc.
      case_decide as Hp; [by apply elem_of_nil in Hp | lia]. }
    rewrite NoDup_occurrences. split.
    + intros Hnil%fmap_nil_inv p. specialize (Hocc' p). subst dups.
      change (occurrences p []) with 0%nat in Hocc'. lia.
    + intros Hle. assert (dups = []) as ->; [|done].
      apply occurrences_nil_iff. intros p. rewrite Hocc'. specialize (Hle p). lia.
  - intros Hnd. rewrite load_sets_run. cbn [fst]. unfold load_sets_loop.
    rewrite load_sets_loop_first_records. cbn [keys fmap list_fmap app].
    rewrite first_records_from_NoDup; [done..|]. by intros p ?%elem_of_nil.
Qed.

Lemma load_sets_without_duplicates_witness :
  NoDup (rec_primary <$> distinct_submission)
  ∧ (@load_sets example_runtime (example_check distinct_submission)).1
    = (λ r, (rec_primary r, set_of_record r)) <$> distinct_submission.
Proof.
  assert (NoDup (rec_primary <$> distinct_submission)) as Hnd
    by (apply (bool_decide_unpack _); vm_compute; exact I).
  split; [exact Hnd|].
  exact (proj2 (@load_sets_without_duplicates example_runtime
                  (example_check distinct_submission)) Hnd).
Defined.

(** ** [has_all_rationales] on a part of the submission *)

Lemma concat_fmap_filter {A B} (P : A → Prop) `{∀ x, Decision (P x)}
    (f : A → list B) (l : list A) :
  concat ((λ x, if bool_decide (¬ P x) then [] else f x) <$> l)
  = concat (f <$> filter P l).
Proof.
  induction l as [|x l IH]; [done|].
  rewrite fmap_cons, filter_cons. cbn [concat]. rewrite IH.
  case_bool_decide as Hx.
  - by rewrite decide_False.
  - by rewrite decide_True.
Qed.

(** X11.  [has_all_rationales] reports on the records whose primary is a
    key of the map it is given and skips every other record: for a reported
    record with a [rationaleBySite] mapping, one error for each occurrence of
    an associated or service site without an entry in it, associated sites
    first; for a reported record without the mapping, one error. *)
Theorem has_all_rationales_errors `{Runtime} (cs : dict RwsSet) (s : state) :
  errors_of (exec (has_all_rationales cs) s)
  = errors_of s
    ++ concat (rationale_errors
               <$> filter (λ rwset, rec_primary rwset ∈ keys cs)
                     (rws_sites (self s))).
Proof.
  unfold exec. rewrite has_all_rationales_run. cbn [snd]. rewrite errors_of_log.
  f_equal. apply (concat_fmap_filter (λ rwset, rec_primary rwset ∈ keys cs)).
Qed.

(** ** [is_eTLD_Plus1] and the scheme *)

(** X12.  [is_eTLD_Plus1] gives a site that does not begin with
    ["https://"] the answer it gives the same site behind ["https://"]: the
    scheme plays no part in the answer, and [url_is_https] alone tells the
    two apart. *)
Theorem is_eTLD_Plus1_ignores_scheme (me : RwsCheck) (site : string) :
  url_is_https site = false →
  is_eTLD_Plus1 me ("https://" +:+ site) = is_eTLD_Plus1 me site
  ∧ url_is_https ("https://" +:+ site) = true.
Proof.
  intros Hsite. split; [|apply prefix_append].
  unfold is_eTLD_Plus1.
  by rewrite removeprefix_append, (removeprefix_absent site "https://").
Qed.

Lemma is_eTLD_Plus1_ignores_scheme_witness :
  is_eTLD_Plus1 com_check ("https://" +:+ "example.com")
  = is_eTLD_Plus1 com_check "example.com"
  ∧ url_is_https ("https://" +:+ "example.com") = true.
Proof.
  apply (is_eTLD_Plus1_ignores_scheme com_check "example.com").
  vm_compute. reflexivity.
Defined.

(** ** What a silent [check_exclusivity] certifies *)

Lemma pairwise_disjoint_app_2 fs gs :
  pairwise_disjoint fs → pairwise_disjoint gs →
  (∀ x, x ∈ concat fs → x ∉ concat gs) →
  pairwise_disjoint (fs ++ gs).
Proof.
  induction fs as [|f fs IH]; intros Hfs Hgs Hcross; [done|].
  destruct Hfs as [Hf Hfs]. cbn [app pairwise_disjoint]. split.
  - rewrite Forall_forall in Hf. apply Forall_forall. intros x Hx.
    rewrite concat_app, elem_of_app. intros [Hin|Hin]; [by apply (Hf x)|].
    apply (Hcross x); [|done]. simpl. apply elem_of_app. by left.
  - apply IH; [done..|]. intros x Hx. apply Hcross. simpl.
    apply elem_of_app. by right.
Qed.

Section Certifies.
Context `{Runtime}.

Lemma exclusivity_step_cases pre sites (sl : gset string) :
  ∃ sl' msgs,
    yields (exclusivity_step pre sites sl) sl' msgs ∧ sl ⊆ sl' ∧
    (msgs = [] → (∀ x, x ∈ sites → x ∉ sl) ∧ (∀ x, x ∈ sites → x ∈ sl')).
Proof.
  unfold exclusivity_step. case_bool_decide as Hover.
  - exists sl, [pre +:+ repr_set (list_to_set sites ∩ sl)]. split_and!; [|done..].
    rewrite <-(app_nil_r [_]).
    apply (yields_bind _ _ ()); [apply yields_append|apply yields_ret].
  - exists (sl ∪ list_to_set sites), []. split_and!; [apply yields_ret| |].
    + set_solver.
    + intros _. split; intros x Hx; [|set_solver].
      intros Hin. assert (x ∈ (list_to_set sites ∩ sl : gset string)) as Hcap
        by set_solver.
      by rewrite Hover in Hcap.
Qed.

Lemma exclusivity_fold_cases pre : ∀ fs (sl : gset string),
  ∃ sl' msgs,
    yields (for_fold fs sl (λ site_list aliases,
              exclusivity_step pre aliases site_list)) sl' msgs
    ∧ sl ⊆ sl' ∧
    (msgs = [] →
     pairwise_disjoint fs ∧ (∀ x, x ∈ concat fs → x ∉ sl)
     ∧ (∀ x, x ∈ concat fs → x ∈ sl')).
Proof.
  induction fs as [|f fs IH]; intros sl.
  - exists sl, []. split_and!; [apply yields_ret|done|]. intros _.
    split_and!; [done|by intros x ?%elem_of_nil..].
  - destruct (exclusivity_step_cases pre f sl) as (sl1 & m1 & Hy1 & Hsub1 & Hnil1).
    destruct (IH sl1) as (sl2 & m2 & Hy2 & Hsub2 & Hnil2).
    exists sl2, (m1 ++ m2). split_and!.
    + cbn [for_fold]. by apply (yields_bind _ _ sl1).
    + set_solver.
    + intros [-> ->]%app_eq_nil.
      destruct (Hnil1 eq_refl) as [Hf Hf'].
      destruct (Hnil2 eq_refl) as (Hpd & Hfs & Hfs').
      cbn [pairwise_disjoint concat]. split_and!.
      * apply Forall_forall. intros x Hx Hin.
        apply (Hfs x Hin). by apply Hf'.
      * done.
      * intros x [Hx|Hx]%elem_of_app; [by apply Hf|].
        intros Hin. apply (Hfs x Hx). set_solver.
      * intros x [Hx|Hx]%elem_of_app; [|by apply Hfs'].
        apply Hsub2. by apply Hf'.
Qed.

Lemma check_exclusivity_body_cases (sl : gset string) p rws :
  ∃ sl' msgs,
    yields (check_exclusivity_body sl (p, rws)) sl' msgs ∧ sl ⊆ sl' ∧
    (msgs = [] →
     (p ∉ sl) ∧ pairwise_disjoint (fields rws)
     ∧ (∀ x, x ∈ member_sites rws → x ∉ sl)
     ∧ (∀ x, x ∈ member_sites rws → x ∈ sl')).
Proof.
  unfold check_exclusivity_body.
  set (sl0 := if bool_decide (p ∈ sl) then sl
              else sl ∪ list_to_set (Str.chars p)).
  set (m0 := if bool_decide (p ∈ sl) then [primary_overlap_error p] else []).
  assert (yields
            (if bool_decide (p ∈ sl) then
               append_error
                 ("This primary is already registered in another related website"
                  +:+ " set: " +:+ p);;
               mret sl
             else mret (sl ∪ list_to_set (Str.chars p))) sl0 m0) as Hy0.
  { subst sl0 m0. case_bool_decide.
    - rewrite <-(app_nil_r [_]).
      apply (yields_bind _ _ ()); [apply yields_append|apply yields_ret].
    - apply yields_ret. }
  assert (sl ⊆ sl0) as Hsub0 by (subst sl0; case_bool_decide; set_solver).
  destruct (exclusivity_step_cases
              ("These associated sites are already registered in "
               +:+ "another related website set: ")
              (associated_sites rws) sl0) as (sl1 & m1 & Hy1 & Hsub1 & Hnil1).
  destruct (exclusivity_step_cases
              ("These service sites are already registered in another"
               +:+ " related website set: ")
              (service_sites rws) sl1) as (sl2 & m2 & Hy2 & Hsub2 & Hnil2).
  destruct (exclusivity_fold_cases
              ("These ccTLD sites are already registered in "
               +:+ "another related website set: ")
              (values (ccTLDs rws)) sl2) as (sl3 & m3 & Hy3 & Hsub3 & Hnil3).
  exists sl3, (m0 ++ m1 ++ m2 ++ m3). split_and!.
  - apply (yields_bind _ _ sl0); [done|].
    apply (yields_bind _ _ sl1); [done|].
    by apply (yields_bind _ _ sl2).
  - set_solver.
  - intros [Hm0 [-> [-> ->]%app_eq_nil]%app_eq_nil]%app_eq_nil.
    destruct (Hnil1 eq_refl) as [Ha Ha'].
    destruct (Hnil2 eq_refl) as [Hs Hs'].
    destruct (Hnil3 eq_refl) as (Hpd & Hc & Hc').
    assert (p ∉ sl) as Hp.
    { subst m0. by case_bool_decide. }
    unfold member_sites, fields. cbn [pairwise_disjoint concat]. split_and!.
    + done.
    + apply Forall_forall. intros x Hx [Hin|Hin]%elem_of_app.
      * apply (Hs x Hin). by apply Ha'.
      * apply (Hc x Hin). apply Hsub2. by apply Ha'.
    + apply Forall_forall. intros x Hx Hin. apply (Hc x Hin). by apply Hs'.
    + done.
    + intros x [Hx|[Hx|Hx]%elem_of_app]%elem_of_app Hin.
      * apply (Ha x Hx). by apply Hsub0.
      * apply (Hs x Hx). set_solver.
      * apply (Hc x Hx). set_solver.
    + intros x [Hx|[Hx|Hx]%elem_of_app]%elem_of_app.
      * set_solver.
      * set_solver.
      * by apply Hc'.
Qed.

Lemma check_exclusivity_loop_cases cs : ∀ (sl : gset string),
  ∃ sl' msgs,
    yields (check_exclusivity_loop cs sl) sl' msgs ∧
    (msgs = [] →
     ∀ seen, (∀ x, x ∈ seen → x ∈ sl) →
       pairwise_disjoint (all_member_fields cs) ∧ primaries_unclaimed seen cs
       ∧ (∀ x, x ∈ concat (all_member_fields cs) → x ∉ sl)).
Proof.
  induction cs as [|[p rws] cs IH]; intros sl.
  - exists sl, []. split; [apply yields_ret|]. intros _ seen _.
    split_and!; [done..|]. by intros x ?%elem_of_nil.
  - destruct (check_exclusivity_body_cases sl p rws)
      as (sl1 & m1 & Hy1 & Hsub1 & Hnil1).
    destruct (IH sl1) as (sl2 & m2 & Hy2 & Hnil2).
    exists sl2, (m1 ++ m2). split.
    + unfold check_exclusivity_loop. cbn [for_fold].
      by apply (yields_bind _ _ sl1).
    + intros [-> ->]%app_eq_nil seen Hseen.
      destruct (Hnil1 eq_refl) as (Hp & Hpd & Hm & Hm').
      destruct (Hnil2 eq_refl (seen ++ member_sites rws))
        as (Hpd' & Hprim & Hrest).
      { intros x [Hx|Hx]%elem_of_app; [by apply Hsub1, Hseen | by apply Hm']. }
      rewrite all_member_fields_cons, concat_app. fold (member_sites rws).
      split_and!.
      * apply pairwise_disjoint_app_2; [done..|]. fold (member_sites rws).
        intros x Hx Hin. apply (Hrest x Hin). by apply Hm'.
      * cbn [primaries_unclaimed]. split; [|done].
        intros Hin. by apply Hp, Hseen.
      * intros x [Hx|Hx]%elem_of_app; [by apply Hm|].
        intros Hin. apply (Hrest x Hx). by apply Hsub1.
Qed.

End Certifies.

(** X13.  When [check_exclusivity] appends nothing, no associated site,
    service site or alias of the collection occurs in two site lists, within
    a Set or across Sets, and no primary is a member site of a Set iterated
    before its own. *)
Theorem check_exclusivity_silent_certifies `{Runtime} (cs : dict RwsSet) (s : state) :
  errors_of (exec (check_exclusivity cs) s) = errors_of s →
  pairwise_disjoint (all_member_fields cs) ∧ primaries_unclaimed [] cs.
Proof.
  destruct (check_exclusivity_loop_cases cs ∅) as (sl' & msgs & Hy & Hnil).
  assert (yields (check_exclusivity cs) () msgs) as Hrun.
  { unfold check_exclusivity. rewrite <-(app_nil_r msgs).
    apply (yields_bind _ _ sl'); [done|apply yields_ret]. }
  rewrite (yields_exec _ () msgs s Hrun), app_eq_self. intros ->.
  destruct (Hnil eq_refl []) as (Hpd & Hprim & _); [|done].
  by intros x ?%elem_of_nil.
Qed.

Lemma check_exclusivity_silent_certifies_witness :
  pairwise_disjoint (all_member_fields [claimed_b; claims_b])
  ∧ primaries_unclaimed [] [claimed_b; claims_b].
Proof.
  apply (@check_exclusivity_silent_certifies example_runtime
           [claimed_b; claims_b] (example_check [])).
  vm_compute. reflexivity.
Defined.

(** ** The difference of two lists, either way round *)

(** X14.  [check_well_known_list] called with its two lists exchanged:
    both calls return nothing when the lists are equal, and otherwise each
    returns one diagnostic, in which the texts of the two lists change
    places and the text of the difference is the same. *)
Theorem check_well_known_list_swap `{Runtime} (field : string) (l1 l2 : list string) :
  let diff := repr_list (sorted (symmetric_difference l1 l2)) in
  check_well_known_list field l1 l2
  = (if decide (l1 = l2) then []
     else [inequality_error field (repr_list l1) (repr_list l2) diff])
  ∧ check_well_known_list field l2 l1
    = (if decide (l1 = l2) then []
       else [inequality_error field (repr_list l2) (repr_list l1) diff]).
Proof.
  intros diff. subst diff. unfold check_well_known_list.
  destruct (decide (l1 = l2)) as [->|Hne].
  - by rewrite bool_decide_eq_true_2.
  - rewrite !bool_decide_eq_false_2; [| by intros -> | done].
    split; [done|].
    replace (symmetric_difference l2 l1) with (symmetric_difference l1 l2); [done|].
    unfold symmetric_difference. apply set_eq. set_solver.
Qed.

(** ** What the checks leave alone *)

(** X15.  No check changes the submitted records, the suffix oracle or the
    country codes of the object it runs on. *)
Theorem checks_keep_inputs `{Runtime} (c : check) (s : state) :
  rws_sites (self (exec (run_check c) s)) = rws_sites (self s)
  ∧ etlds (self (exec (run_check c) s)) = etlds (self s)
  ∧ icanns (self (exec (run_check c) s)) = icanns (self s).
Proof.
  assert ((∃ cs, c = CheckAssociatedCount cs) ∨ ∀ cs, c ≠ CheckAssociatedCount cs)
    as [[cs ->]|Hother] by (destruct c; eauto).
  - cbn [run_check]. by rewrite check_associated_count_exec.
  - destruct (run_check_errors_only c Hother s) as [msgs Hs]. by rewrite Hs.
Qed.

Section Offline.
Context `{Runtime}.

Lemma offline_ret {A} (x : A) : offline (mret x).
Proof. by intros s. Qed.

Lemma offline_bind {A B} (m : M A) (k : A → M B) :
  offline m → (∀ a, offline (k a)) → offline (m ≫= k).
Proof. intros Hm Hk s. by rewrite exec_bind, Hk, Hm. Qed.

Lemma offline_get_self : offline get_self.
Proof. by intros s. Qed.

Lemma offline_extend msgs : offline (extend_errors msgs).
Proof. by intros s. Qed.

Lemma offline_append msg : offline (append_error msg).
Proof. by intros s. Qed.

Lemma offline_warning msg : offline (append_warning msg).
Proof. by intros s. Qed.

Lemma offline_when b (m : M unit) : offline m → offline (when b m).
Proof. destruct b; [done | intros _; apply offline_ret]. Qed.

Lemma offline_for_each {A} (xs : list A) (body : A → M unit) :
  (∀ x, offline (body x)) → offline (for_each xs body).
Proof.
  intros Hbody. induction xs as [|x xs IH]; simpl.
  - apply offline_ret.
  - apply offline_bind; [apply Hbody | by intros _].
Qed.

Lemma offline_for_fold {A S} (xs : list A) (acc : S) (body : S → A → M S) :
  (∀ acc x, offline (body acc x)) → offline (for_fold xs acc body).
Proof.
  intros Hbody. revert acc. induction xs as [|x xs IH]; intros acc; simpl.
  - apply offline_ret.
  - apply offline_bind; [apply Hbody | done].
Qed.

End Offline.

Ltac offline_step :=
  first
    [ apply offline_ret
    | apply offline_get_self
    | apply offline_extend
    | apply offline_append
    | apply offline_warning
    | apply offline_when
    | apply offline_bind; [| intros ?]
    | apply offline_for_each; intros ?
    | apply offline_for_fold; intros ? ?
    | match goal with
      | |- offline (match ?x with _ => _ end) => destruct x
      | |- offline (if ?b then _ else _) => destruct b
      end ].

(** X16.  The checks of the submission itself ([load_sets],
    [has_all_rationales], [check_exclusivity], [check_associated_count],
    [find_non_https_urls], [find_invalid_eTLD_Plus1] and
    [find_invalid_alias_eSLDs]) make no request. *)
Theorem structural_checks_offline `{Runtime} (c : check) (s : state) :
  match c with
  | LoadSets | HasAllRationales _ | CheckExclusivity _ | CheckAssociatedCount _
  | FindNonHttpsUrls _ | FindInvalidETLDPlus1 _ | FindInvalidAliasESLDs _ =>
      net (exec (run_check c) s) = net s
  | _ => True
  end.
Proof.
  destruct c; try done; revert s; cbn [run_check];
    change (∀ s, net (exec ?m s) = net s) with (offline m).
  - unfold load_sets. repeat offline_step.
  - unfold has_all_rationales, has_all_rationales_body. repeat offline_step.
  - unfold check_exclusivity, check_exclusivity_loop, check_exclusivity_body,
      exclusivity_step. repeat offline_step.
  - unfold check_associated_count. repeat offline_step.
  - unfold find_non_https_urls. repeat offline_step.
  - unfold find_invalid_eTLD_Plus1. repeat offline_step.
  - unfold find_invalid_alias_eSLDs. repeat offline_step.
Qed.

(** ** [check_exclusivity], step by step *)

Section Category_steps.
Context `{Runtime}.

Lemma claimed_after_app cats1 : ∀ cats2 site_list,
  claimed_after site_list (cats1 ++ cats2)
  = claimed_after (claimed_after site_list cats1) cats2.
Proof.
  induction cats1 as [|cat cats1 IH]; intros cats2 site_list; [done|].
  cbn [app claimed_after]. destruct (overlaps site_list cat); apply IH.
Qed.

Lemma exclusivity_errors_app cats1 : ∀ cats2 site_list,
  exclusivity_errors site_list (cats1 ++ cats2)
  = exclusivity_errors site_list cats1
    ++ exclusivity_errors (claimed_after site_list cats1) cats2.
Proof.
  induction cats1 as [|cat cats1 IH]; intros cats2 site_list; [done|].
  cbn [app claimed_after exclusivity_errors].
  destruct (overlaps site_list cat); [|apply IH].
  rewrite IH. done.
Qed.

Lemma exclusivity_step_yields report sites site_list :
  yields (exclusivity_step report sites site_list)
    (claimed_after site_list [SitesStep report sites])
    (exclusivity_errors site_list [SitesStep report sites]).
Proof.
  unfold exclusivity_step.
  cbn [claimed_after exclusivity_errors overlaps overlap_error claimed_by].
  case_bool_decide.
  - apply (yields_bind _ _ () [_] _ []); [apply yields_append | apply yields_ret].
  - apply yields_ret.
Qed.

Lemma exclusivity_fold_yields report lists : ∀ site_list,
  yields (for_fold lists site_list (λ site_list aliases,
            exclusivity_step report aliases site_list))
    (claimed_after site_list (SitesStep report <$> lists))
    (exclusivity_errors site_list (SitesStep report <$> lists)).
Proof.
  induction lists as [|aliases lists IH]; intros site_list.
  - apply yields_ret.
  - rewrite fmap_cons.
    change (?c :: ?l) with ([c] ++ l) at 2 3.
    rewrite claimed_after_app, exclusivity_errors_app. cbn [for_fold].
    eapply yields_bind; [apply exclusivity_step_yields | apply IH].
Qed.

Lemma primary_step_yields primary site_list :
  yields
    (if bool_decide (primary ∈ site_list) then
       append_error
         ("This primary is already registered in another related website"
          +:+ " set: " +:+ primary);;
       mret site_list
     else mret (site_list ∪ list_to_set (Str.chars primary)))
    (claimed_after site_list [PrimaryStep primary])
    (exclusivity_errors site_list [PrimaryStep primary]).
Proof.
  cbn [claimed_after exclusivity_errors overlaps overlap_error claimed_by].
  case_bool_decide.
  - apply (yields_bind _ _ () [_] _ []); [apply yields_append | apply yields_ret].
  - apply yields_ret.
Qed.

Lemma check_exclusivity_body_yields site_list item :
  yields (check_exclusivity_body site_list item)
    (claimed_after site_list (categories_of item))
    (exclusivity_errors site_list (categories_of item)).
Proof.
  destruct item as [primary rws]. unfold check_exclusivity_body, categories_of.
  cbn [fst snd].
  change (?a :: ?b :: ?c :: ?l) with ([a] ++ [b] ++ [c] ++ l).
  rewrite !claimed_after_app, !exclusivity_errors_app.
  eapply yields_bind; [apply primary_step_yields|].
  eapply yields_bind; [apply exclusivity_step_yields|].
  eapply yields_bind; [apply exclusivity_step_yields|].
  apply exclusivity_fold_yields.
Qed.

Lemma check_exclusivity_loop_yields check_sets : ∀ site_list,
  yields (check_exclusivity_loop check_sets site_list)
    (claimed_after site_list (categories check_sets))
    (exclusivity_errors site_list (categories check_sets)).
Proof.
  unfold check_exclusivity_loop, categories.
  induction check_sets as [|item check_sets IH]; intros site_list.
  - apply yields_ret.
  - rewrite fmap_cons. cbn [concat for_fold].
    rewrite claimed_after_app, exclusivity_errors_app.
    eapply yields_bind; [apply check_exclusivity_body_yields | apply IH].
Qed.

Lemma check_exclusivity_run check_sets s :
  check_exclusivity check_sets s
  = ((), log (exclusivity_errors ∅ (categories check_sets)) s).
Proof.
  unfold check_exclusivity.
  pose proof (yields_bind _ (λ _, mret ()) _ _ () []
                (check_exclusivity_loop_yields check_sets ∅) (yields_ret ()))
    as Hrun.
  rewrite app_nil_r in Hrun. apply Hrun.
Qed.

Lemma exclusivity_errors_length cats : ∀ site_list,
  (length (exclusivity_errors site_list cats) ≤ length cats)%nat.
Proof.
  induction cats as [|cat cats IH]; intros site_list; [done|].
  cbn [exclusivity_errors]. destruct (overlaps site_list cat); simpl.
  - specialize (IH site_list). lia.
  - specialize (IH (site_list ∪ claimed_by cat)). lia.
Qed.

Lemma exclusivity_errors_steps cats site_list :
  exclusivity_errors site_list cats
  = concat (imap (step_errors site_list cats) cats).
Proof.
  induction cats as [|cat cats IH] using rev_ind; [done|].
  rewrite exclusivity_errors_app, imap_app, concat_app. f_equal.
  - rewrite IH. f_equal. apply imap_ext. intros i x Hx.
    apply lookup_lt_Some in Hx. unfold step_errors.
    by rewrite take_app_le by lia.
  - cbn [imap concat exclusivity_errors]. unfold step_errors.
    rewrite Nat.add_0_r, take_app_length, app_nil_r.
    by destruct (overlaps (claimed_after site_list cats) cat).
Qed.

End Category_steps.

(** C1, amended.  [check_exclusivity] is not symmetric in the order of the
    Sets.  It goes through the category steps of the Sets in map order (for
    each Set its primary, its associated sites, its service sites, each of
    its alias lists) and appends one error for each step that overlaps the
    set claimed so far, and no other; a step adds to the claimed set only
    when it does not overlap (for a primary, what [site_list.update(primary)]
    adds).  So the number of errors depends on the order: whatever the
    runtime, [shares_a] before [shares_b] gives two errors and [shares_b]
    before [shares_a] gives one.  For two Sets A and B whose member sites all
    begin with ["https://"], where the primary of B is an associated site of
    A, the primary of A is no member site of either and no site occurs in
    two of their site lists, A before B gives exactly one error, the one
    about the primary of B. *)
Theorem check_exclusivity_by_category_steps `{Runtime} :
  (∀ (check_sets : dict RwsSet) (s : state),
     errors_of (exec (check_exclusivity check_sets) s)
     = errors_of s ++ exclusivity_errors ∅ (categories check_sets)
     ∧ exclusivity_errors ∅ (categories check_sets)
       = concat (imap (step_errors ∅ (categories check_sets))
                   (categories check_sets))
     ∧ (length (exclusivity_errors ∅ (categories check_sets))
        ≤ length (categories check_sets))%nat)
  ∧ (∀ w : World,
       exclusivity_error_count [shares_a; shares_b] w = 2%nat
       ∧ exclusivity_error_count [shares_b; shares_a] w = 1%nat)
  ∧ (∀ (pA pB : string) (A B : RwsSet) (s : state),
       pB ∈ associated_sites A →
       Forall (λ site, url_is_https site = true) (member_sites A ++ member_sites B) →
       pA ∉ member_sites A ++ member_sites B →
       pairwise_disjoint (fields A ++ fields B) →
       errors_of (exec (check_exclusivity [(pA, A); (pB, B)]) s)
       = errors_of s ++ [primary_overlap_error pB]).
Proof.
  split_and!.
  - intros check_sets s.
    split_and!; [|apply exclusivity_errors_steps|apply exclusivity_errors_length].
    unfold exec. by rewrite check_exclusivity_run.
  - intros w. unfold exclusivity_error_count, exec.
    rewrite !check_exclusivity_run. split; vm_compute; reflexivity.
  - intros pA pB A B s. apply check_exclusivity_associated_then_primary.
Qed.

Lemma check_exclusivity_by_category_steps_witness :
  errors_of (exec (@check_exclusivity example_runtime [claims_b; claimed_b])
               (example_check []))
  = [primary_overlap_error "https://b.example"].
Proof.
  apply (proj2 (proj2 (@check_exclusivity_by_category_steps example_runtime))
           "https://a.example" "https://b.example" claims_b.2 claimed_b.2
           (example_check [])).
  - apply (bool_decide_unpack _). vm_compute. exact I.
  - apply (bool_decide_unpack _). vm_compute. exact I.
  - apply (bool_decide_unpack _). vm_compute. exact I.
  - apply (bool_decide_unpack _). vm_compute. exact I.
Defined.

(** ** Run to completion *)

Lemma load_sets_loop_errors sets : ∀ cs errs,
  (foldl load_sets_step (cs, errs) sets).2
  = errs ++ (already_primary <$> repeated_primaries (keys cs) (rec_primary <$> sets)).
Proof.
  induction sets as [|r sets IH]; intros cs errs.
  - simpl. by rewrite app_nil_r.
  - rewrite fmap_cons. cbn [foldl repeated_primaries].
    rewrite load_sets_step_eq. case_bool_decide as Hin.
    + rewrite decide_True by done. rewrite IH, fmap_cons, <-app_assoc. done.
    + rewrite decide_False by done. rewrite IH, keys_app. done.
Qed.

Section Findings.
Context `{Runtime}.

Lemma state_eta (s : state) : State (self s) (net s) = s.
Proof. by destruct s. Qed.

(** The state a check leaves: the errors it owes its input appended, the
    warnings it owes appended, the network as its requests left it. *)
Lemma run_check_exec c s :
  exec (run_check c) s
  = State (set_warning_texts (warning_texts (self s) ++ warnings_due c)
             (set_error_list (error_list (self s) ++ check_findings c s) (self s)))
      (network_after c s).
Proof.
  assert (∀ msgs w,
            log msgs (State (self s) w)
            = State (set_warning_texts (warning_texts (self s) ++ [])
                       (set_error_list (error_list (self s) ++ msgs) (self s))) w)
    as Hlog.
  { intros msgs w. unfold log. cbn [self net]. f_equal.
    destruct (self s). unfold set_warning_texts, set_error_list. cbn.
    by rewrite app_nil_r. }
  destruct c as [|cs|cs|cs|cs|cs|p l|cs|cs|cs|cs|cs|cs];
    cbn [run_check warnings_due check_findings network_after].
  - rewrite exec_bind. unfold exec. rewrite load_sets_run. cbn [fst snd].
    unfold load_sets_loop. rewrite load_sets_loop_errors. cbn [keys fmap list_fmap app].
    rewrite <-Hlog. unfold log. cbn [self net]. done.
  - unfold exec. rewrite has_all_rationales_run. cbn [snd].
    rewrite (concat_fmap_filter (λ rwset, rec_primary rwset ∈ keys cs)).
    rewrite <-Hlog. by rewrite state_eta.
  - unfold exec. rewrite check_exclusivity_run. cbn [snd].
    rewrite <-Hlog. by rewrite state_eta.
  - rewrite check_associated_count_exec. f_equal.
    destruct (self s). unfold set_warning_texts, set_error_list. cbn.
    by rewrite app_nil_r.
  - rewrite find_non_https_urls_visit. unfold exec.
    rewrite (visit_sites_yields url_is_https non_https_error cs s). cbn [snd].
    rewrite <-Hlog. by rewrite state_eta.
  - unfold exec. rewrite find_invalid_eTLD_Plus1_visit.
    rewrite (visit_sites_yields (is_eTLD_Plus1 (self s)) not_eTLD_Plus1_error cs s).
    cbn [snd]. rewrite <-Hlog. by rewrite state_eta.
  - rewrite check_list_sites_exec. apply Hlog.
  - rewrite find_invalid_well_known_exec. apply Hlog.
  - unfold find_invalid_removal.
    rewrite (for_each_request (λ primary, primary +:+ WELL_KNOWN) true
               removal_verdict _ find_invalid_removal_site_run).
    apply Hlog.
  - unfold exec. rewrite find_invalid_alias_eSLDs_run. cbn [snd].
    rewrite <-Hlog. by rewrite state_eta.
  - rewrite find_robots_tag_exec. apply Hlog.
  - unfold exec. rewrite find_ads_txt_flat.
    pose proof (for_each_request (λ site, site +:+ "/ads.txt") true ads_txt_verdict
                  find_ads_txt_site find_ads_txt_site_run (all_service_sites cs) s)
      as Hrun.
    unfold exec in Hrun. rewrite Hrun. apply Hlog.
  - unfold exec. rewrite check_for_service_redirect_flat.
    pose proof (for_each_request (λ site, site) true redirect_verdict
                  _ check_for_service_redirect_site_run (all_service_sites cs) s)
      as Hrun.
    unfold exec in Hrun. rewrite Hrun. apply Hlog.
Qed.

End Findings.

(** C9.  Every check of [check] (all the methods of the class but
    [validate_schema], which hands the document to [jsonschema]) only
    appends: the errors and the warnings present before a check, or before a
    whole run, are a prefix of those present after it.  No check stops at a
    finding: what a check appends is, in order, what it owes every element
    of its input, those after a violation as those before it.  [load_sets]
    owes an error for every record whose primary repeats an earlier one;
    [has_all_rationales] the errors of every record whose primary is a key
    of the map; [check_exclusivity] an error for every category step that
    overlaps; [find_non_https_urls], [find_invalid_eTLD_Plus1] and
    [find_invalid_alias_eSLDs] an error for every site or alias at fault;
    [check_associated_count] a warning for every Set over the limit; and
    [check_list_sites], [find_invalid_well_known], [find_invalid_removal],
    [find_robots_tag], [find_ads_txt] and [check_for_service_redirect] make
    their request for every site in turn, whatever the earlier requests
    returned or raised, and owe the verdict on each outcome. *)
Theorem diagnostics_accumulate `{Runtime} :
  (∀ c s,
     errors_of s `prefix_of` errors_of (exec (run_check c) s)
     ∧ warnings_of s `prefix_of` warnings_of (exec (run_check c) s)) ∧
  (∀ checks s,
     errors_of s `prefix_of` errors_of (exec (run_checks checks) s)
     ∧ warnings_of s `prefix_of` warnings_of (exec (run_checks checks) s)) ∧
  (∀ c s,
     errors_of (exec (run_check c) s) = errors_of s ++ check_findings c s
     ∧ warnings_of (exec (run_check c) s) = warnings_of s ++ warnings_due c
     ∧ net (exec (run_check c) s) = network_after c s).
Proof.
  split_and!.
  - intros c s. split; [apply run_check_errors_prefix|].
    rewrite run_check_warnings. by apply prefix_app_r.
  - intros checks s. split; [apply run_checks_errors_prefix|].
    rewrite run_checks_warnings. by apply prefix_app_r.
  - intros c s. by rewrite run_check_exec.
Qed.
